(** * Coupled phase oscillators (CPG network) and the Go1 joint mapping

    A shallow embedding of [cpgnet.py] and [kinematics.py], and of the
    parts of the scripts that compute with them: the trot network, the
    recording loop of [plot_rollout.py], [psi_func] and the amplitude
    modulation of the two kinematics plots, and the mapping from the
    oscillators to the twelve joints in [unitree_go1_trot.py].

    Numbers.  The program computes with float64; here every float is a real
    number ([R]) and [np.sin], [np.pi] are [sin] and [PI], so rounding,
    overflow and NaN are outside the development.

    Arrays.  A numpy array is an object: the program passes references to
    arrays around and [+=] updates the referenced buffer in place.  The
    [heap] below is the store of array objects and a [loc] is a reference,
    so two attributes that hold the same array share one store entry.
    Arrays have one or two axes and hold floats; overlapping views of one
    buffer and integer arrays are not modelled. *)

From Stdlib Require Import Reals Lra Lia.
From stdpp Require Import base option list.

Open Scope R_scope.

(** [map] is stdpp's map on lists. *)
Abbreviation map := (fmap (M := list)).

(** ** Exceptions and results *)

Inductive exn :=
| AssertionError   (* a failed [assert]; the spec calls it ShapeMismatch *)
| ValueError       (* operands could not be broadcast together *)
| AxisError        (* [sum(axis=1)] on an array with a single axis *)
| NotModelled      (* the operation would build an array with three axes *)
| NoSuchObject.    (* a reference that is not in the store; Python has none *)

Inductive res (A : Type) :=
| Ok (a : A)
| Raise (e : exn).
Arguments Ok {A} a.
Arguments Raise {A} e.

#[export] Instance res_ret : MRet res := λ A a, Ok a.
#[export] Instance res_bind : MBind res := λ A B f m,
  match m with Ok a => f a | Raise e => Raise e end.

(** ** numpy arrays with one or two axes *)

Inductive ndarray :=
| Arr1 (v : list R)
| Arr2 (ncols : nat) (rows : list (list R)).
   (* every row has [ncols] entries; [ncols] is kept for arrays without rows *)

Definition shape (a : ndarray) : list nat :=
  match a with
  | Arr1 v => [length v]
  | Arr2 c rows => [length rows; c]
  end.

Definition size (a : ndarray) : nat := foldr Nat.mul 1%nat (shape a).

#[export] Instance shape_eq_dec (s t : list nat) : Decision (s = t) := _.

(** [np.sin(a)], [2 * np.pi * a], [a * timestep]: one function on every entry. *)
Definition amap (f : R → R) (a : ndarray) : ndarray :=
  match a with
  | Arr1 v => Arr1 (map f v)
  | Arr2 c rows => Arr2 c (map (map f) rows)
  end.

(** [a[np.newaxis, :]] and [a[:, np.newaxis]]. *)
Definition row_vector (a : ndarray) : res ndarray :=
  match a with
  | Arr1 v => Ok (Arr2 (length v) [v])
  | Arr2 _ _ => Raise NotModelled
  end.

Definition col_vector (a : ndarray) : res ndarray :=
  match a with
  | Arr1 v => Ok (Arr2 1 (map (λ x, [x]) v))
  | Arr2 _ _ => Raise NotModelled
  end.

(** Broadcasting of one axis: equal lengths, or one of them is 1. *)
Definition bdim (a b : nat) : res nat :=
  if decide (a = b) then Ok a
  else if decide (a = 1%nat) then Ok b
  else if decide (b = 1%nat) then Ok a
  else Raise ValueError.

(** An axis of length 1 is repeated [n] times; any other axis is kept. *)
Definition stretch {A} (n : nat) (l : list A) : list A :=
  match l with
  | [x] => replicate n x
  | _ => l
  end.

Definition broadcast1 (f : R → R → R) (x y : list R) : res ndarray :=
  n ← bdim (length x) (length y);
  Ok (Arr1 (zip_with f (stretch n x) (stretch n y))).

Definition broadcast2 (f : R → R → R)
    (c1 : nat) (rows1 : list (list R)) (c2 : nat) (rows2 : list (list R))
    : res ndarray :=
  n ← bdim (length rows1) (length rows2);
  c ← bdim c1 c2;
  Ok (Arr2 c (zip_with (λ x y, zip_with f (stretch c x) (stretch c y))
                       (stretch n rows1) (stretch n rows2))).

(** A binary operator of numpy ([+], [-], [*]) on two arrays: a one-axis
    operand meets a two-axis one as a single row. *)
Definition binop (f : R → R → R) (a b : ndarray) : res ndarray :=
  match a, b with
  | Arr1 x, Arr1 y => broadcast1 f x y
  | Arr1 x, Arr2 c rows => broadcast2 f (length x) [x] c rows
  | Arr2 c rows, Arr1 y => broadcast2 f c rows (length y) [y]
  | Arr2 c1 rows1, Arr2 c2 rows2 => broadcast2 f c1 rows1 c2 rows2
  end.

Definition sum_list (l : list R) : R := foldr Rplus 0 l.

(** [a.sum(axis=1)] *)
Definition sum_axis1 (a : ndarray) : res ndarray :=
  match a with
  | Arr1 _ => Raise AxisError
  | Arr2 _ rows => Ok (Arr1 (map sum_list rows))
  end.

(** ** cpgnet.py: the derivative function *)

Definition calculate_ddt (theta r w phi nu R alpha : ndarray)
    : res (ndarray * ndarray) :=
  let intrinsic_term := amap (Rmult (2 * PI)) nu in
  theta_row ← row_vector theta;
  theta_col ← col_vector theta;
  phase_diff ← binop Rminus theta_row theta_col;
  rw ← binop Rmult r w;
  diff_bias ← binop Rminus phase_diff phi;
  terms ← binop Rmult rw (amap sin diff_bias);
  coupling_term ← sum_axis1 terms;
  dtheta_dt ← binop Rplus intrinsic_term coupling_term;
  R_minus_r ← binop Rminus R r;
  dr_dt ← binop Rmult alpha R_minus_r;
  Ok (dtheta_dt, dr_dt).

(** ** The store of array objects *)

Abbreviation loc := nat.
Abbreviation heap := (list ndarray).

(** Computations that read and write the store and may raise; the store
    survives an exception. *)
Definition M (A : Type) : Type := heap → res A * heap.

#[export] Instance M_ret : MRet M := λ A a h, (Ok a, h).
#[export] Instance M_bind : MBind M := λ A B f m h,
  match m h with
  | (Ok a, h') => f a h'
  | (Raise e, h') => (Raise e, h')
  end.

Definition lift {A} (x : res A) : M A := λ h, (x, h).

Definition load (l : loc) : M ndarray := λ h,
  match h !! l with
  | Some a => (Ok a, h)
  | None => (Raise NoSuchObject, h)
  end.

Definition store (l : loc) (a : ndarray) : M unit := λ h, (Ok (), <[l := a]> h).

(** A new array object; its reference is returned. *)
Definition alloc (a : ndarray) : M loc := λ h, (Ok (length h), h ++ [a]).

(** [target += b]: the sum is written into the buffer of [target], whose
    shape cannot change. *)
Definition iadd (target : loc) (b : ndarray) : M unit :=
  a ← load target;
  s ← lift (binop Rplus a b);
  if decide (shape s = shape a) then store target s
  else lift (Raise ValueError).

Definition assert (b : bool) : M unit :=
  if b then mret () else lift (Raise AssertionError).

(** ** cpgnet.py: class CPGNetwork *)

Section CPG.

(** [np.random.RandomState]: the generator's states, the state that a
    seed it accepts gives, and [random(n)], which returns [n] samples and
    the advanced state. *)
Context {rng : Type}.
Variable RandomState : Z → rng.
Variable random : rng → nat → list R * rng.

Record CPGNetwork := mkCPGNetwork {
  timestep : R;
  num_cpgs : nat;
  intrinsic_freqs : loc;
  intrinsic_amps : loc;
  coupling_weights : loc;
  phase_biases : loc;
  convergence_coefs : loc;
  random_state : rng;
  curr_phases : loc;
  curr_magnitudes : loc
}.

Definition set_random_state (g : rng) (self : CPGNetwork) : CPGNetwork :=
  mkCPGNetwork (timestep self) (num_cpgs self) (intrinsic_freqs self)
    (intrinsic_amps self) (coupling_weights self) (phase_biases self)
    (convergence_coefs self) g (curr_phases self) (curr_magnitudes self).

Definition set_curr_phases (l : loc) (self : CPGNetwork) : CPGNetwork :=
  mkCPGNetwork (timestep self) (num_cpgs self) (intrinsic_freqs self)
    (intrinsic_amps self) (coupling_weights self) (phase_biases self)
    (convergence_coefs self) (random_state self) l (curr_magnitudes self).

Definition set_curr_magnitudes (l : loc) (self : CPGNetwork) : CPGNetwork :=
  mkCPGNetwork (timestep self) (num_cpgs self) (intrinsic_freqs self)
    (intrinsic_amps self) (coupling_weights self) (phase_biases self)
    (convergence_coefs self) (random_state self) (curr_phases self) l.

Definition step (self : CPGNetwork) : M unit :=
  theta ← load (curr_phases self);
  r ← load (curr_magnitudes self);
  w ← load (coupling_weights self);
  phi ← load (phase_biases self);
  nu ← load (intrinsic_freqs self);
  R ← load (intrinsic_amps self);
  alpha ← load (convergence_coefs self);
  d ← lift (calculate_ddt theta r w phi nu R alpha);
  iadd (curr_phases self) (amap (λ x, x * timestep self) d.1);;
  iadd (curr_magnitudes self) (amap (λ x, x * timestep self) d.2).

Definition reset (self : CPGNetwork) (init_phases init_magnitudes : option loc)
    : M CPGNetwork :=
  self ← match init_phases with
         | None =>
             let s := random (random_state self) (num_cpgs self) in
             l ← alloc (Arr1 (map (λ u, u * 2 * PI) s.1));
             mret (set_curr_phases l (set_random_state s.2 self))
         | Some a => mret (set_curr_phases a self)
         end;
  match init_magnitudes with
  | None =>
      l ← alloc (Arr1 (replicate (num_cpgs self) 0));
      mret (set_curr_magnitudes l self)
  | Some a => mret (set_curr_magnitudes a self)
  end.

(** [np.random.RandomState(seed)] for an integer seed: numpy raises
    ValueError unless the seed is between 0 and [2 ** 32 - 1]. *)
Definition new_RandomState (seed : Z) : res rng :=
  if decide (0 ≤ seed < 2 ^ 32)%Z then Ok (RandomState seed)
  else Raise ValueError.

(** [__init__].  The two state attributes do not exist before [reset] has
    run; [reset] assigns both on every path, so the references the record
    starts with are never read (lemma [reset_ignores_state]). *)
Definition __init__ (timestep : R)
    (intrinsic_freqs intrinsic_amps coupling_weights phase_biases
       convergence_coefs : loc)
    (init_phases init_magnitudes : option loc) (seed : Z) : M CPGNetwork :=
  nu ← load intrinsic_freqs;
  random_state ← lift (new_RandomState seed);
  let self := mkCPGNetwork timestep (size nu) intrinsic_freqs intrinsic_amps
                coupling_weights phase_biases convergence_coefs
                random_state 0%nat 0%nat in
  self ← reset self init_phases init_magnitudes;
  let n := num_cpgs self in
  assert (bool_decide (shape nu = [n]));;
  w ← load coupling_weights;
  assert (bool_decide (shape w = [n; n]));;
  phi ← load phase_biases;
  assert (bool_decide (shape phi = [n; n]));;
  alpha ← load convergence_coefs;
  assert (bool_decide (shape alpha = [n]));;
  theta ← load (curr_phases self);
  assert (bool_decide (shape theta = [n]));;
  r ← load (curr_magnitudes self);
  assert (bool_decide (shape r = [n]));;
  mret self.

(** The caller's loop [for _ in range(k): network.step()]. *)
Fixpoint steps (k : nat) (self : CPGNetwork) : M unit :=
  match k with
  | O => mret ()
  | S k' => step self;; steps k' self
  end.

End CPG.

(** ** kinematics.py *)

Definition get_go1_target_angles (phase amplitude : R) : ndarray :=
  let s := sin phase in
  let angle_hip := 0 in
  let angle_thigh := 0.8 - (amplitude * 0.3) * s in
  let base_calf := -1.6 in
  let angle_calf :=
    if Rgt_dec s 0 then base_calf - (amplitude * 0.7) * s else base_calf in
  Arr1 [angle_hip; angle_thigh; angle_calf].

(** ** The equations of the specification

    The values of the seven arrays of a network, and the update that the
    specification writes for one step, entry by entry. *)

Record arrays := mkArrays {
  a_theta : list R;          (* curr_phases *)
  a_r : list R;              (* curr_magnitudes *)
  a_w : list (list R);       (* coupling_weights *)
  a_phi : list (list R);     (* phase_biases *)
  a_nu : list R;             (* intrinsic_freqs *)
  a_R : list R;              (* intrinsic_amps *)
  a_alpha : list R           (* convergence_coefs *)
}.

Definition at1 (v : list R) (i : nat) : R := nth i v 0.
Definition at2 (m : list (list R)) (i j : nat) : R := nth j (nth i m []) 0.

(** The sum of [f j] over [j = 0 .. n-1]. *)
Definition sigma (n : nat) (f : nat → R) : R := sum_list (map f (seq 0 n)).

Definition euler_phase (dt : R) (a : arrays) (i : nat) : R :=
  at1 (a_theta a) i
  + dt * (2 * PI * at1 (a_nu a) i
          + sigma (length (a_theta a)) (λ j,
              at1 (a_r a) j * at2 (a_w a) i j
              * sin (at1 (a_theta a) j - at1 (a_theta a) i - at2 (a_phi a) i j))).

Definition euler_magnitude (dt : R) (a : arrays) (i : nat) : R :=
  at1 (a_r a) i + dt * at1 (a_alpha a) i * (at1 (a_R a) i - at1 (a_r a) i).

(** One synchronous Euler step on the state, the parameters kept. *)
Definition euler (dt : R) (a : arrays) : arrays :=
  mkArrays (map (euler_phase dt a) (seq 0 (length (a_theta a))))
           (map (euler_magnitude dt a) (seq 0 (length (a_r a))))
           (a_w a) (a_phi a) (a_nu a) (a_R a) (a_alpha a).

(** The shape invariants of the data model for [n] oscillators. *)
Definition well_shaped (n : nat) (a : arrays) : Prop :=
  length (a_theta a) = n ∧ length (a_r a) = n ∧
  length (a_nu a) = n ∧ length (a_R a) = n ∧ length (a_alpha a) = n ∧
  length (a_w a) = n ∧ Forall (λ row, length row = n) (a_w a) ∧
  length (a_phi a) = n ∧ Forall (λ row, length row = n) (a_phi a).

(** Every row of the matrix is zero. *)
Definition zero_matrix (m : list (list R)) : Prop :=
  Forall (Forall (λ x, x = 0)) m.

(** The two lists that [calculate_ddt] builds. *)
Definition ddt_theta (a : arrays) : list R :=
  zip_with Rplus
    (map (Rmult (2 * PI)) (a_nu a))
    (map sum_list
       (zip_with (zip_with Rmult)
          (map (zip_with Rmult (a_r a)) (a_w a))
          (map (map sin)
             (zip_with (zip_with Rminus)
                (map (λ t, map (λ u, u - t) (a_theta a)) (a_theta a))
                (a_phi a))))).

Definition ddt_r (a : arrays) : list R :=
  zip_with Rmult (a_alpha a) (zip_with Rminus (a_R a) (a_r a)).

(** [k] Euler updates in a row. *)
Fixpoint eulers (k : nat) (dt : R) (a : arrays) : arrays :=
  match k with
  | O => a
  | S k' => eulers k' dt (euler dt a)
  end.

Section Views.
Context {rng : Type}.

(** The attributes of [self] refer, in the store [h], to the arrays [a]. *)
Definition reads (self : @CPGNetwork rng) (h : heap) (a : arrays) : Prop :=
  h !! curr_phases self = Some (Arr1 (a_theta a)) ∧
  h !! curr_magnitudes self = Some (Arr1 (a_r a)) ∧
  h !! coupling_weights self = Some (Arr2 (length (a_theta a)) (a_w a)) ∧
  h !! phase_biases self = Some (Arr2 (length (a_theta a)) (a_phi a)) ∧
  h !! intrinsic_freqs self = Some (Arr1 (a_nu a)) ∧
  h !! intrinsic_amps self = Some (Arr1 (a_R a)) ∧
  h !! convergence_coefs self = Some (Arr1 (a_alpha a)).

(** The references to the five parameter arrays. *)
Definition param_refs (self : @CPGNetwork rng) : list loc :=
  [intrinsic_freqs self; intrinsic_amps self; coupling_weights self;
   phase_biases self; convergence_coefs self].

(** The two state vectors are two array objects, and neither of them is
    one of the parameter arrays. *)
Definition own_state (self : @CPGNetwork rng) : Prop :=
  (curr_phases self ≠ curr_magnitudes self) ∧
  (curr_phases self ∉ param_refs self) ∧
  (curr_magnitudes self ∉ param_refs self).

(** Two networks that differ at most in their random source. *)
Definition same_but_rng (n1 n2 : @CPGNetwork rng) : Prop :=
  timestep n1 = timestep n2 ∧ num_cpgs n1 = num_cpgs n2 ∧
  intrinsic_freqs n1 = intrinsic_freqs n2 ∧
  intrinsic_amps n1 = intrinsic_amps n2 ∧
  coupling_weights n1 = coupling_weights n2 ∧
  phase_biases n1 = phase_biases n2 ∧
  convergence_coefs n1 = convergence_coefs n2 ∧
  curr_phases n1 = curr_phases n2 ∧
  curr_magnitudes n1 = curr_magnitudes n2.

Variable random : rng → nat → list R * rng.
Implicit Types (self : @CPGNetwork rng) (h : heap) (a : arrays).

(** The claim of C1 for one network state: [step] returns, and entry [i]
    of each state vector is then the Euler update computed from the values
    [a] that the arrays held before the call. *)
Definition step_is_euler self h a : Prop :=
  ∃ h' theta' r',
    step self h = (Ok (), h') ∧
    h' !! curr_phases self = Some (Arr1 theta') ∧
    h' !! curr_magnitudes self = Some (Arr1 r') ∧
    length theta' = length (a_theta a) ∧
    length r' = length (a_r a) ∧
    (∀ i, (i < length (a_theta a))%nat →
          theta' !! i = Some (euler_phase (timestep self) a i)) ∧
    (∀ i, (i < length (a_r a))%nat →
          r' !! i = Some (euler_magnitude (timestep self) a i)).

(** C4 as stated: after [k] steps every phase is its initial value plus
    [k * timestep * 2 * pi * intrinsic_freqs i]. *)
Definition phases_linear self h a : Prop :=
  ∀ k, ∃ h' theta',
    steps k self h = (Ok (), h') ∧
    h' !! curr_phases self = Some (Arr1 theta') ∧
    length theta' = length (a_theta a) ∧
    ∀ i, (i < length (a_theta a))%nat →
         theta' !! i
         = Some (at1 (a_theta a) i
                 + INR k * timestep self * 2 * PI * at1 (a_nu a) i).

(** Entry [i] of [curr_magnitudes] is [x] after [k] steps. *)
Definition magnitude_after self h (k i : nat) (x : R) : Prop :=
  ∃ h' r', steps k self h = (Ok (), h') ∧
           h' !! curr_magnitudes self = Some (Arr1 r') ∧
           r' !! i = Some x.

(** A monotone sequence that comes and stays as close to [target] as one
    likes. *)
Definition approaches_monotonically (u : nat → R) (target : R) : Prop :=
  ((∀ k, u k <= u (S k)) ∨ (∀ k, u (S k) <= u k)) ∧
  ∀ eps, 0 < eps → ∃ K, ∀ k, (K ≤ k)%nat → Rabs (u k - target) < eps.

(** C5 as stated: the magnitudes of oscillator [i] along the steps form a
    sequence that approaches the target amplitude monotonically. *)
Definition amplitude_converges self h a (i : nat) : Prop :=
  ∃ u : nat → R,
    (∀ k, magnitude_after self h k i (u k)) ∧
    approaches_monotonically u (at1 (a_R a) i).

(** C10 as stated: after any equal number of steps the two networks hold
    the same magnitudes. *)
Definition magnitudes_agree self1 h1 self2 h2 : Prop :=
  ∀ k, ∃ h1' h2' r',
    steps k self1 h1 = (Ok (), h1') ∧
    steps k self2 h2 = (Ok (), h2') ∧
    h1' !! curr_magnitudes self1 = Some (Arr1 r') ∧
    h2' !! curr_magnitudes self2 = Some (Arr1 r').

(** The parameter attributes of two records are the same. *)
Definition same_params self1 self2 : Prop :=
  timestep self1 = timestep self2 ∧ num_cpgs self1 = num_cpgs self2 ∧
  param_refs self1 = param_refs self2.

(** C7 as stated for [step]: no parameter array has changed when [step]
    is over. *)
Definition step_keeps_params self h : Prop :=
  ∀ out h', step self h = (out, h') →
            ∀ l, l ∈ param_refs self → h' !! l = h !! l.

(** The array behind [l] has shape [s]. *)
Definition has_shape h (l : loc) (s : list nat) : Prop :=
  shape <$> h !! l = Some s.

(** Both state vectors have one axis of length [num_cpgs]. *)
Definition state_lengths self h : Prop :=
  has_shape h (curr_phases self) [num_cpgs self] ∧
  has_shape h (curr_magnitudes self) [num_cpgs self].

(** C6 as stated for [reset]: any call keeps the lengths. *)
Definition reset_keeps_lengths self h ip im : Prop :=
  state_lengths self h →
  ∀ self' h', reset random self ip im h = (Ok self', h') →
              state_lengths self' h'.

(** The six assertions of [__init__], in their order.  The array of
    target amplitudes is not among them. *)
Definition shapes_accepted (n : nat) (nu w phi alpha theta r : ndarray) : bool :=
  bool_decide (shape nu = [n]) && bool_decide (shape w = [n; n]) &&
  bool_decide (shape phi = [n; n]) && bool_decide (shape alpha = [n]) &&
  bool_decide (shape theta = [n]) && bool_decide (shape r = [n]).

End Views.

(** ** Concrete networks and stores *)

(** A generator for the examples: every sample is 1/2 and the state counts
    the samples drawn. *)
Definition halves_seed (seed : Z) : nat := 0%nat.
Definition halves (g n : nat) : list R * nat := (replicate n (1 / 2), (g + n)%nat).

(** One oscillator with unit parameters and no coupling.  References 0 and
    6 are two zero vectors [z] and [z']; 1 to 5 are the parameter arrays. *)
Definition unit_heap : heap :=
  [Arr1 [0]; Arr1 [1]; Arr1 [1]; Arr2 1 [[0]]; Arr2 1 [[0]]; Arr1 [1];
   Arr1 [0]].

Definition unit_arrays : arrays :=
  mkArrays [0] [0] [[0]] [[0]] [1] [1] [1].

(** [CPGNetwork(1.0, freqs, amps, w, phi, alpha, init_phases=z,
    init_magnitudes=z)]: both state attributes are the array [z]. *)
Definition shared_net : @CPGNetwork nat :=
  mkCPGNetwork 1 1 1 2 3 4 5 0%nat 0 0.

(** [CPGNetwork(1.0, freqs, amps, w, phi, alpha, init_phases=z,
    init_magnitudes=z')]: two arrays for the two state vectors. *)
Definition unit_net : @CPGNetwork nat :=
  mkCPGNetwork 1 1 1 2 3 4 5 0%nat 0 6.

(** One oscillator whose convergence coefficient is 3 at timestep 1. *)
Definition fast_heap : heap :=
  [Arr1 [0]; Arr1 [1]; Arr1 [1]; Arr2 1 [[0]]; Arr2 1 [[0]]; Arr1 [3];
   Arr1 [0]].

Definition fast_arrays : arrays :=
  mkArrays [0] [0] [[0]] [[0]] [1] [1] [3].

(** A second store for [unit_net]: other phases, frequencies, weights and
    biases, the same magnitudes, targets and coefficients. *)
Definition other_heap : heap :=
  [Arr1 [2]; Arr1 [5]; Arr1 [1]; Arr2 1 [[7]]; Arr2 1 [[1]]; Arr1 [1];
   Arr1 [0]].

Definition other_arrays : arrays :=
  mkArrays [2] [0] [[7]] [[1]] [5] [1] [1].

(** [CPGNetwork(1.0, freqs, amps, w, phi, alpha, init_phases=freqs,
    init_magnitudes=z')]: the phases are the frequency array itself. *)
Definition echo_net : @CPGNetwork nat :=
  mkCPGNetwork 1 1 1 2 3 4 5 0%nat 1 6.

Definition echo_arrays : arrays :=
  mkArrays [1] [0] [[0]] [[0]] [1] [1] [1].

(** The trot parameters for two oscillators, with three target
    amplitudes: references 0 to 4 are [intrinsic_freqs], [intrinsic_amps],
    [coupling_weights], [phase_biases] and [convergence_coefs]. *)
Definition long_amps_heap : heap :=
  [Arr1 [6; 6]; Arr1 [1; 1; 1]; Arr2 2 [[0; 10]; [10; 0]];
   Arr2 2 [[0; PI]; [PI; 0]]; Arr1 [20; 20]].

Definition long_amps_net : @CPGNetwork nat :=
  mkCPGNetwork 0.002 2 0 1 2 3 4 2%nat 5 6.

Definition long_amps_built : heap :=
  long_amps_heap ++ [Arr1 [1 / 2 * 2 * PI; 1 / 2 * 2 * PI]; Arr1 [0; 0]].

(** A store with a vector of two entries behind reference 7. *)
Definition long_heap : heap := unit_heap ++ [Arr1 [0; 0]].

(** ** unitree_go1_trot.py: the control loop *)

(** [standing_pose] of [main]: hip, thigh and calf of a standing leg. *)
Definition standing_pose : list R := [0; 0.8; -1.6].

(** ** plot_rollout.py and unitree_go1_trot.py: the trot network *)

(** [np.pi * np.array([[0,1,1,0],[1,0,0,1],[1,0,0,1],[0,1,1,0]])] *)
Definition trot_biases : list (list R) :=
  map (map (Rmult PI))
    [[0; 1; 1; 0]; [1; 0; 0; 1]; [1; 0; 0; 1]; [0; 1; 1; 0]].

(** [(phase_biases > 0) * 10.0]: a comparison yields 1 for true and 0 for
    false. *)
Definition trot_weights : list (list R) :=
  map (map (λ x, (if Rgt_dec x 0 then 1 else 0) * 10)) trot_biases.

(** The store of the two scripts before the constructor runs: references 0
    to 4 are [np.ones(4) * 6.0], [np.ones(4) * 1.0], [coupling_weights],
    [phase_biases] and [np.ones(4) * 20.0]. *)
Definition trot_heap : heap :=
  [Arr1 (map (λ x, x * 6) (replicate 4 1));
   Arr1 (map (λ x, x * 1) (replicate 4 1));
   Arr2 4 trot_weights; Arr2 4 trot_biases;
   Arr1 (map (λ x, x * 20) (replicate 4 1))].

(** The network of the scripts, [CPGNetwork(timestep=0.002, ...)] with the
    generator [halves], and the store it leaves. *)
Definition trot_net : @CPGNetwork nat :=
  mkCPGNetwork 0.002 4 0 1 2 3 4 4%nat 5 6.

Definition trot_built : heap :=
  trot_heap ++ [Arr1 (map (λ u, u * 2 * PI) (replicate 4 (1 / 2)));
                Arr1 (replicate 4 0)].

(** ** Shapes that the constructor checks, and networks it lets through *)

(** A supplied initial vector, if any, has shape [s]. *)
Definition supplied_shape (h : heap) (init : option loc) (s : list nat) : Prop :=
  ∀ l, init = Some l → has_shape h l s.

(** All arrays that [__init__] checks have the shape they should. *)
Definition init_shapes_ok (h : heap) (nu W Phi Al : ndarray)
    (ip im : option loc) : Prop :=
  shape nu = [size nu] ∧ shape W = [size nu; size nu] ∧
  shape Phi = [size nu; size nu] ∧ shape Al = [size nu] ∧
  supplied_shape h ip [size nu] ∧ supplied_shape h im [size nu].

(** The shape invariants for [n] oscillators, but for the array of target
    amplitudes, which the constructor does not check. *)
Definition shaped_except_amps (n : nat) (a : arrays) : Prop :=
  length (a_theta a) = n ∧ length (a_r a) = n ∧
  length (a_nu a) = n ∧ length (a_alpha a) = n ∧
  length (a_w a) = n ∧ Forall (λ row, length row = n) (a_w a) ∧
  length (a_phi a) = n ∧ Forall (λ row, length row = n) (a_phi a).

(** The attributes of [self] refer to the arrays [a], but for
    [intrinsic_amps], which refers to [amps]. *)
Definition reads_except_amps {rng} (self : @CPGNetwork rng) (h : heap)
    (a : arrays) (amps : ndarray) : Prop :=
  h !! curr_phases self = Some (Arr1 (a_theta a)) ∧
  h !! curr_magnitudes self = Some (Arr1 (a_r a)) ∧
  h !! coupling_weights self = Some (Arr2 (length (a_theta a)) (a_w a)) ∧
  h !! phase_biases self = Some (Arr2 (length (a_theta a)) (a_phi a)) ∧
  h !! intrinsic_freqs self = Some (Arr1 (a_nu a)) ∧
  h !! intrinsic_amps self = Some amps ∧
  h !! convergence_coefs self = Some (Arr1 (a_alpha a)).

(** Two oscillators with the target amplitudes [amps], as the constructor
    leaves them with zero initial vectors: references 5 and 6 are the
    state vectors. *)
Definition two_osc_heap (amps : ndarray) : heap :=
  [Arr1 [6; 6]; amps; Arr2 2 [[0; 10]; [10; 0]];
   Arr2 2 [[0; PI]; [PI; 0]]; Arr1 [20; 20]; Arr1 [0; 0]; Arr1 [0; 0]].

Definition two_osc_arrays : arrays :=
  mkArrays [0; 0] [0; 0] [[0; 10]; [10; 0]] [[0; PI]; [PI; 0]] [6; 6] []
    [20; 20].

(** The arrays of [trot_net] in the store [trot_built]. *)
Definition trot_arrays : arrays :=
  mkArrays (map (λ u, u * 2 * PI) (replicate 4 (1 / 2))) (replicate 4 0)
    trot_weights trot_biases
    (map (λ x, x * 6) (replicate 4 1)) (map (λ x, x * 1) (replicate 4 1))
    (map (λ x, x * 20) (replicate 4 1)).

(** ** Phases moved by a constant and by whole turns *)



(** The parameter attributes of [self] refer to the parameters of [a], for
    [n] oscillators. *)
Definition reads_params {rng} (self : @CPGNetwork rng) (h : heap) (n : nat)
    (a : arrays) : Prop :=
  h !! coupling_weights self = Some (Arr2 n (a_w a)) ∧
  h !! phase_biases self = Some (Arr2 n (a_phi a)) ∧
  h !! intrinsic_freqs self = Some (Arr1 (a_nu a)) ∧
  h !! intrinsic_amps self = Some (Arr1 (a_R a)) ∧
  h !! convergence_coefs self = Some (Arr1 (a_alpha a)).


(** ** plot_kinematics.py and plot_kinematics_amp_modulated.py *)

(** One row of [np.array([...])]: an array of one axis with [c] entries;
    rows of other shapes cannot be stacked. *)
Definition row_of (c : nat) (a : ndarray) : res (list R) :=
  match a with
  | Arr1 v => if decide (length v = c) then Ok v else Raise ValueError
  | Arr2 _ _ => Raise ValueError
  end.

(** [np.array(xs)] for a list of arrays: the arrays become the rows; the
    empty list gives an empty array with one axis. *)
Definition np_array (xs : list ndarray) : res ndarray :=
  match xs with
  | [] => Ok (Arr1 [])
  | Arr1 v :: _ => rows ← mapM (row_of (length v)) xs; Ok (Arr2 (length v) rows)
  | Arr2 _ _ :: _ => Raise NotModelled
  end.

(** [a.T] *)
Definition transpose (a : ndarray) : ndarray :=
  match a with
  | Arr1 v => Arr1 v
  | Arr2 c rows =>
      Arr2 (length rows) (map (λ j, map (λ row, nth j row 0) rows) (seq 0 c))
  end.

(** The function that [make_func] returns:
    [lambda t_array: np.array([get_go1_target_angles(t, amplitude=1.0)
    for t in t_array]).T] *)
Definition psi_func (t_array : list R) : res ndarray :=
  stacked ← np_array (map (λ t, get_go1_target_angles t 1) t_array);
  Ok (transpose stacked).

(** The body of the loop of plot_kinematics_amp_modulated.py for one leg,
    with the two sample arrays [theta_ts] and [r_ts] of the script. *)
Definition joint_angles_amp_modulated (theta_ts r_ts : list R) : res ndarray :=
  neutral_pos ← psi_func [0];
  base_wave ← psi_func theta_ts;
  deviation ← binop Rminus base_wave neutral_pos;
  scaled ← binop Rmult (Arr1 r_ts) deviation;
  binop Rplus neutral_pos scaled.

(** Entry [d] of the joint angles at phase [p] and amplitude [a]. *)
Definition angle (d : nat) (p a : R) : R :=
  match get_go1_target_angles p a with
  | Arr1 v => nth d v 0
  | Arr2 _ _ => 0
  end.

(** ** unitree_go1_trot.py: from the oscillators to the twelve joints *)

(** Outcomes of the index reads and slice assignments of the loop. *)
Inductive ctl (A : Type) :=
| Got (a : A)
| IndexError      (* an index past the end of a state vector *)
| SliceError.     (* a value that does not fit the slice it is assigned to *)
Arguments Got {A} a.
Arguments IndexError {A}.
Arguments SliceError {A}.

#[export] Instance ctl_ret : MRet ctl := λ A a, Got a.
#[export] Instance ctl_bind : MBind ctl := λ A B f m,
  match m with
  | Got a => f a
  | IndexError => IndexError
  | SliceError => SliceError
  end.

(** [v[k]] *)
Definition index (v : list R) (k : nat) : ctl R :=
  match v !! k with
  | Some x => Got x
  | None => IndexError
  end.

(** [l[start:stop] = vals]: the value has as many entries as the slice, or
    a single entry that fills the slice. *)
Definition assign_slice (start stop : nat) (vals : ndarray) (l : list R)
    : ctl (list R) :=
  let stop := Nat.min stop (length l) in
  let width := (stop - start)%nat in
  let fill (v : list R) : ctl (list R) :=
    if decide (length v = width) then Got (take start l ++ v ++ drop stop l)
    else match v with
         | [x] => Got (take start l ++ replicate width x ++ drop stop l)
         | _ => SliceError
         end in
  match vals with
  | Arr1 v => fill v
  | Arr2 _ [row] => fill row
  | Arr2 _ _ => SliceError
  end.

(** [np.tile(l, k)] for a list *)
Definition np_tile (l : list R) (k : nat) : list R := concat (replicate k l).

(** Step B of the loop of [main]: the targets of the twelve joints, legs
    FR, FL, RR, RL driven by oscillators 2, 0, 3, 1. *)
Definition control_signal (curr_phases curr_magnitudes : list R)
    : ctl (list R) :=
  let ctrl_signal := replicate 12 0 in
  p ← index curr_phases 2; m ← index curr_magnitudes 2;
  ctrl_signal ← assign_slice 0 3 (get_go1_target_angles p m) ctrl_signal;
  p ← index curr_phases 0; m ← index curr_magnitudes 0;
  ctrl_signal ← assign_slice 3 6 (get_go1_target_angles p m) ctrl_signal;
  p ← index curr_phases 3; m ← index curr_magnitudes 3;
  ctrl_signal ← assign_slice 6 9 (get_go1_target_angles p m) ctrl_signal;
  p ← index curr_phases 1; m ← index curr_magnitudes 1;
  assign_slice 9 12 (get_go1_target_angles p m) ctrl_signal.

(** The three joint angles of one leg. *)
Definition leg (p a : R) : list R := [angle 0 p a; angle 1 p a; angle 2 p a].

(** Oscillators [i] and [i'] have the same state and the same parameters. *)
Definition twins (a : arrays) (i i' : nat) : Prop :=
  at1 (a_theta a) i = at1 (a_theta a) i' ∧
  at1 (a_r a) i = at1 (a_r a) i' ∧
  at1 (a_nu a) i = at1 (a_nu a) i' ∧
  at1 (a_R a) i = at1 (a_R a) i' ∧
  at1 (a_alpha a) i = at1 (a_alpha a) i' ∧
  nth i (a_w a) [] = nth i' (a_w a) [] ∧
  nth i (a_phi a) [] = nth i' (a_phi a) [].

(** ** plot_rollout.py: the recorded history *)

(** [np.empty((rows, cols))]: an array that is not initialised; [garbage]
    stands for whatever the memory holds. *)
Definition np_empty (rows cols : nat) (garbage : nat → nat → R)
    : list (list R) :=
  map (λ i, map (garbage i) (seq 0 cols)) (seq 0 rows).

(** [hist[i, :] = v] for a history whose rows have [width] entries: the
    entries of [v] are copied into row [i]. *)
Definition set_row (width i : nat) (v : ndarray) (hist : list (list R))
    : ctl (list (list R)) :=
  if decide (i < length hist)%nat then
    let fill (xs : list R) : ctl (list (list R)) :=
      if decide (length xs = width) then Got (<[i := xs]> hist)
      else match xs with
           | [x] => Got (<[i := replicate width x]> hist)
           | _ => SliceError
           end in
    match v with
    | Arr1 xs => fill xs
    | Arr2 _ [row] => fill row
    | Arr2 _ _ => SliceError
    end
  else IndexError.

(** The rest of a computation on the store after an assignment into a
    history. *)
Definition and_then {A B} (c : ctl A) (f : A → M (ctl B)) : M (ctl B) :=
  match c with
  | Got a => f a
  | IndexError => mret IndexError
  | SliceError => mret SliceError
  end.

(** The simulation loop, from index [i] for [count] more rounds. *)
Fixpoint rollout_from {rng} (network : @CPGNetwork rng) (i count : nat)
    (phase_hist magnitude_hist : list (list R))
    : M (ctl (list (list R) * list (list R))) :=
  match count with
  | O => mret (Got (phase_hist, magnitude_hist))
  | S count' =>
      step network;;
      p ← load (curr_phases network);
      and_then (set_row 4 i p phase_hist) (λ phase_hist,
        m ← load (curr_magnitudes network);
        and_then (set_row 4 i m magnitude_hist) (λ magnitude_hist,
          rollout_from network (S i) count' phase_hist magnitude_hist))
  end.

(** The two histories of [num_steps] rounds. *)
Definition rollout {rng} (network : @CPGNetwork rng) (num_steps : nat)
    (garbage_p garbage_m : nat → nat → R)
    : M (ctl (list (list R) * list (list R))) :=
  let phase_hist := np_empty num_steps 4 garbage_p in
  let magnitude_hist := np_empty num_steps 4 garbage_m in
  rollout_from network 0 num_steps phase_hist magnitude_hist.

(** * Facts *)

(** ** Broadcasting *)

Lemma bdim_same n : bdim n n = Ok n.
Proof. unfold bdim. by rewrite decide_True. Qed.

Lemma bdim_one_l n : bdim 1 n = Ok n.
Proof. unfold bdim. repeat case_decide; congruence. Qed.

Lemma bdim_one_r n : bdim n 1 = Ok n.
Proof. unfold bdim. repeat case_decide; congruence. Qed.

Lemma stretch_id {A} n (l : list A) : length l = n → stretch n l = l.
Proof. intros <-. by destruct l as [|x [|y l]]. Qed.

(** Two vectors of one length: entry by entry. *)
Lemma binop_vec f x y :
  length x = length y →
  binop f (Arr1 x) (Arr1 y) = Ok (Arr1 (zip_with f x y)).
Proof.
  intros E. simpl. unfold broadcast1. rewrite E, bdim_same. simpl.
  by rewrite !stretch_id.
Qed.

(** A vector against a matrix with as many columns: the vector meets
    every row. *)
Lemma binop_vec_mat f x c rows :
  length x = c → Forall (λ row, length row = c) rows →
  binop f (Arr1 x) (Arr2 c rows)
  = Ok (Arr2 c (map (zip_with f x) rows)).
Proof.
  intros E Hrows. simpl. unfold broadcast2. simpl.
  rewrite bdim_one_l, E, bdim_same. simpl. do 2 f_equal.
  rewrite (stretch_id (length rows) rows) by done.
  rewrite zip_with_replicate_l by done.
  apply Forall_fmap_ext. eapply Forall_impl; [exact Hrows|].
  intros row Hrow. simpl. by rewrite !stretch_id.
Qed.

(** Two matrices of one shape: entry by entry. *)
Lemma binop_mat f c rows1 rows2 :
  length rows1 = length rows2 →
  Forall (λ row, length row = c) rows1 →
  Forall (λ row, length row = c) rows2 →
  binop f (Arr2 c rows1) (Arr2 c rows2)
  = Ok (Arr2 c (zip_with (zip_with f) rows1 rows2)).
Proof.
  intros E H1 H2. simpl. unfold broadcast2.
  rewrite E, !bdim_same. simpl. rewrite !stretch_id by done.
  do 2 f_equal. clear E. revert rows2 H2.
  induction H1 as [|r1 rows1 Hr1 _ IH]; intros [|r2 rows2] H2; simpl; try done.
  inversion_clear H2. f_equal; [by rewrite !stretch_id | by apply IH].
Qed.

(** The row [theta] against the column [theta]: entry [i, j] is
    [theta j - theta i]. *)
Lemma binop_row_col f (theta : list R) :
  binop f (Arr2 (length theta) [theta]) (Arr2 1 (map (λ x, [x]) theta))
  = Ok (Arr2 (length theta) (map (λ t, map (λ u, f u t) theta) theta)).
Proof.
  simpl. unfold broadcast2. simpl.
  rewrite length_fmap, bdim_one_l, bdim_one_r. simpl. do 2 f_equal.
  rewrite (stretch_id (length theta) (map _ theta)) by by rewrite length_fmap.
  rewrite zip_with_replicate_l by by rewrite length_fmap.
  rewrite <- list_fmap_compose.
  apply list_fmap_ext. intros _ t _. simpl.
  rewrite stretch_id by done.
  by rewrite zip_with_replicate_r by done.
Qed.

(** ** Entries of mapped and zipped lists *)

Ltac lengths :=
  repeat first [ rewrite length_fmap | rewrite length_zip_with
               | rewrite length_seq | rewrite length_replicate
               | rewrite length_insert ];
  try lia.

Lemma nth_fmap {A B} (f : A → B) l i d d' :
  (i < length l)%nat → nth i (map f l) d' = f (nth i l d).
Proof.
  revert i; induction l as [|x l IH]; intros [|i] Hi; simpl in *;
    try lia; try done.
  apply IH. lia.
Qed.

Lemma nth_zip_with {A B C} (f : A → B → C) x y i dx dy dz :
  (i < length x)%nat → (i < length y)%nat →
  nth i (zip_with f x y) dz = f (nth i x dx) (nth i y dy).
Proof.
  revert y i; induction x as [|a x IH]; intros [|b y] [|i] Hx Hy;
    simpl in *; try lia; try done.
  apply IH; lia.
Qed.

Lemma nth_seq_fmap {A} (f : nat → A) n i d :
  (i < n)%nat → nth i (map f (seq 0 n)) d = f i.
Proof.
  intros Hi. rewrite (nth_fmap f _ i 0%nat) by by rewrite length_seq.
  by rewrite seq_nth.
Qed.

Lemma nth_row_length (m : list (list R)) n i :
  Forall (λ row, length row = n) m → (i < length m)%nat →
  length (nth i m []) = n.
Proof.
  intros Hm Hi. rewrite Forall_forall in Hm. apply Hm.
  apply list_elem_of_In, nth_In, Hi.
Qed.

(** ** Sums *)

Lemma sigma_S n f : sigma (S n) f = f 0%nat + sigma n (λ j, f (S j)).
Proof.
  unfold sigma. simpl. f_equal.
  by rewrite <- fmap_S_seq, <- list_fmap_compose.
Qed.

Lemma sigma_ext n f g :
  (∀ j, (j < n)%nat → f j = g j) → sigma n f = sigma n g.
Proof.
  revert f g; induction n as [|n IH]; intros f g E; [done|].
  rewrite !sigma_S. f_equal; [apply E; lia|].
  apply IH. intros j Hj. apply E. lia.
Qed.

Lemma sigma_zero n : sigma n (λ _, 0) = 0.
Proof. induction n as [|n IH]; [done|]. rewrite sigma_S, IH. lra. Qed.

Lemma sum_list_sigma l : sum_list l = sigma (length l) (λ j, nth j l 0).
Proof.
  induction l as [|x l IH]; [done|].
  simpl length. rewrite sigma_S. simpl. by rewrite IH.
Qed.

(** ** The derivative function on well-shaped arrays *)

Lemma Forall_length_zip_with {A B C} (f : A → B → C) n
    (m1 : list (list A)) (m2 : list (list B)) :
  Forall (λ row, length row = n) m1 → Forall (λ row, length row = n) m2 →
  Forall (λ row, length row = n) (zip_with (zip_with f) m1 m2).
Proof.
  intros H1; revert m2; induction H1 as [|r1 m1 Hr1 _ IH];
    intros [|r2 m2] H2; simpl; try by constructor.
  inversion_clear H2. constructor; [|by apply IH].
  rewrite length_zip_with. lia.
Qed.

Lemma calculate_ddt_well_shaped n a :
  well_shaped n a →
  calculate_ddt (Arr1 (a_theta a)) (Arr1 (a_r a)) (Arr2 n (a_w a))
    (Arr2 n (a_phi a)) (Arr1 (a_nu a)) (Arr1 (a_R a)) (Arr1 (a_alpha a))
  = Ok (Arr1 (ddt_theta a), Arr1 (ddt_r a)).
Proof.
  intros (Hth & Hr & Hnu & HR & Hal & Hw & Hwr & Hphi & Hphir).
  unfold calculate_ddt. simpl row_vector. simpl col_vector.
  cbn [mbind res_bind]. rewrite binop_row_col. cbn [mbind res_bind].
  rewrite binop_vec_mat by (done || congruence). cbn [mbind res_bind].
  rewrite Hth.
  assert (Hd : Forall (λ row : list R, length row = n)
                 (map (λ t, map (λ u, u - t) (a_theta a)) (a_theta a))).
  { apply Forall_fmap, Forall_forall. intros t _. simpl.
    by rewrite length_fmap. }
  rewrite binop_mat; [|by rewrite length_fmap; congruence|done|done].
  cbn [mbind res_bind]. simpl amap.
  rewrite binop_mat; cycle 1.
  { lengths. }
  { apply Forall_fmap. eapply Forall_impl; [exact Hwr|].
    intros row Hrow. simpl in Hrow. unfold compose. rewrite length_zip_with. lia. }
  { apply Forall_fmap.
    eapply Forall_impl; [apply (Forall_length_zip_with Rminus n); eassumption|].
    intros row Hrow. simpl in Hrow. unfold compose. by rewrite length_fmap. }
  cbn [mbind res_bind]. simpl sum_axis1. cbn [mbind res_bind].
  rewrite (binop_vec Rplus) by lengths. cbn [mbind res_bind].
  rewrite (binop_vec Rminus) by lia. cbn [mbind res_bind].
  by rewrite (binop_vec Rmult) by lengths.
Qed.

Lemma ddt_r_nth n a i :
  well_shaped n a → (i < n)%nat →
  nth i (ddt_r a) 0
  = at1 (a_alpha a) i * (at1 (a_R a) i - at1 (a_r a) i).
Proof.
  intros (Hth & Hr & Hnu & HR & Hal & _) Hi. unfold ddt_r, at1.
  rewrite (nth_zip_with Rmult _ _ _ 0 0) by lengths.
  by rewrite (nth_zip_with Rminus _ _ _ 0 0) by lia.
Qed.

Lemma ddt_theta_nth n a i :
  well_shaped n a → (i < n)%nat →
  nth i (ddt_theta a) 0
  = 2 * PI * at1 (a_nu a) i
    + sigma n (λ j, at1 (a_r a) j * at2 (a_w a) i j
                    * sin (at1 (a_theta a) j - at1 (a_theta a) i
                           - at2 (a_phi a) i j)).
Proof.
  intros (Hth & Hr & Hnu & HR & Hal & Hw & Hwr & Hphi & Hphir) Hi.
  pose proof (nth_row_length _ _ i Hwr ltac:(lia)) as Hwi.
  pose proof (nth_row_length _ _ i Hphir ltac:(lia)) as Hphii.
  unfold ddt_theta, at1, at2.
  rewrite (nth_zip_with Rplus _ _ _ 0 0) by lengths.
  rewrite (nth_fmap _ _ _ 0) by lia. f_equal.
  rewrite (nth_fmap _ _ _ []) by lengths.
  rewrite (nth_zip_with _ _ _ _ [] []) by lengths.
  rewrite (nth_fmap _ _ _ []) by lia.
  rewrite (nth_fmap _ _ _ []) by lengths.
  rewrite (nth_zip_with _ _ _ _ [] []) by lengths.
  rewrite (nth_fmap _ _ _ 0) by lia.
  rewrite sum_list_sigma.
  replace (length _) with n by lengths.
  apply sigma_ext. intros j Hj.
  rewrite (nth_zip_with Rmult _ _ _ 0 0) by lengths.
  rewrite (nth_zip_with Rmult _ _ _ 0 0) by lia.
  rewrite (nth_fmap sin _ _ 0) by lengths.
  rewrite (nth_zip_with Rminus _ _ _ 0 0) by lengths.
  by rewrite (nth_fmap _ _ _ 0) by lia.
Qed.

(** The state vectors after the two in-place additions are the Euler
    update of the specification. *)
Lemma euler_theta_eq n dt a :
  well_shaped n a →
  zip_with Rplus (a_theta a) (map (λ x, x * dt) (ddt_theta a))
  = a_theta (euler dt a).
Proof.
  intros Ha. pose proof Ha as (Hth & Hr & Hnu & HR & Hal & Hw & _ & Hphi & _).
  assert (length (ddt_theta a) = n) by (unfold ddt_theta; lengths).
  apply (nth_ext _ _ 0 0); [simpl; lengths|].
  intros i Hi. rewrite length_zip_with, length_fmap in Hi.
  rewrite (nth_zip_with Rplus _ _ _ 0 0) by lengths.
  rewrite (nth_fmap _ _ _ 0) by lia.
  rewrite (ddt_theta_nth n) by (done || lia).
  simpl. rewrite nth_seq_fmap by lia. unfold euler_phase, at1.
  rewrite Hth. lra.
Qed.

Lemma euler_r_eq n dt a :
  well_shaped n a →
  zip_with Rplus (a_r a) (map (λ x, x * dt) (ddt_r a)) = a_r (euler dt a).
Proof.
  intros Ha. pose proof Ha as (Hth & Hr & Hnu & HR & Hal & _).
  assert (length (ddt_r a) = n) by (unfold ddt_r; lengths).
  apply (nth_ext _ _ 0 0); [simpl; lengths|].
  intros i Hi. rewrite length_zip_with, length_fmap in Hi.
  rewrite (nth_zip_with Rplus _ _ _ 0 0) by lengths.
  rewrite (nth_fmap _ _ _ 0) by lia.
  rewrite (ddt_r_nth n) by (done || lia).
  simpl. rewrite nth_seq_fmap by lia. unfold euler_magnitude, at1. lra.
Qed.

Lemma length_euler_theta dt a :
  length (a_theta (euler dt a)) = length (a_theta a).
Proof. simpl. by rewrite length_fmap, length_seq. Qed.

Lemma length_euler_r dt a : length (a_r (euler dt a)) = length (a_r a).
Proof. simpl. by rewrite length_fmap, length_seq. Qed.

Lemma euler_well_shaped n dt a : well_shaped n a → well_shaped n (euler dt a).
Proof.
  intros (Hth & Hr & H). unfold well_shaped. simpl.
  by rewrite !length_fmap, !length_seq.
Qed.

(** ** The store *)

Lemma M_bind_unfold {A B} (m : M A) (f : A → M B) h :
  (m ≫= f) h
  = match m h with (Ok a, h') => f a h' | (Raise e, h') => (Raise e, h') end.
Proof. done. Qed.

Lemma bind_load {B} l a (f : ndarray → M B) (h : heap) :
  h !! l = Some a → (load l ≫= f) h = f a h.
Proof. intros Hl. rewrite M_bind_unfold. unfold load. by rewrite Hl. Qed.

Lemma bind_lift {A B} (x : res A) (f : A → M B) h :
  (lift x ≫= f) h = match x with Ok a => f a h | Raise e => (Raise e, h) end.
Proof. rewrite M_bind_unfold. unfold lift. by destruct x. Qed.

Lemma iadd_vec l x y (h : heap) :
  h !! l = Some (Arr1 x) → length x = length y →
  iadd l (Arr1 y) h = (Ok (), <[l := Arr1 (zip_with Rplus x y)]> h).
Proof.
  intros Hl E. unfold iadd.
  rewrite (bind_load _ _ _ _ Hl), bind_lift, binop_vec by done.
  rewrite decide_True; [done|]. simpl. rewrite length_zip_with. f_equal. lia.
Qed.

(** [iadd] writes at most the buffer of its target and keeps the shape of
    every array, whether it returns or raises. *)
Lemma iadd_frame l b (h h' : heap) out :
  iadd l b h = (out, h') →
  length h' = length h ∧
  (∀ l', l' ≠ l → h' !! l' = h !! l') ∧
  (∀ l', shape <$> h' !! l' = shape <$> h !! l').
Proof.
  unfold iadd. rewrite M_bind_unfold. unfold load.
  destruct (h !! l) as [a|] eqn:Hl; [|by intros [= <- <-]].
  rewrite bind_lift.
  destruct (binop Rplus a b) as [s|e]; [|by intros [= <- <-]].
  case_decide as Hs; [|by intros [= <- <-]].
  unfold store. intros [= <- <-]. split; [by rewrite length_insert|]. split.
  - intros l' Hne. by rewrite list_lookup_insert_ne.
  - intros l'. destruct (decide (l' = l)) as [->|Hne].
    + rewrite list_lookup_insert_eq by by eapply lookup_lt_Some.
      rewrite Hl. simpl. by rewrite Hs.
    + by rewrite list_lookup_insert_ne.
Qed.

(** ** One step *)

Section Step.
Context {rng : Type}.
Implicit Types (self : @CPGNetwork rng) (h : heap) (a : arrays).

(** On well-shaped arrays [step] is its two in-place additions, whatever
    the sharing between the seven references. *)
Lemma step_unfold self h a n :
  reads self h a → well_shaped n a →
  step self h
  = (iadd (curr_phases self)
       (Arr1 (map (λ x, x * timestep self) (ddt_theta a)));;
     iadd (curr_magnitudes self)
       (Arr1 (map (λ x, x * timestep self) (ddt_r a)))) h.
Proof.
  intros (Hth & Hr & Hw & Hphi & Hnu & HR & Hal) Ha. unfold step.
  rewrite (bind_load _ _ _ _ Hth), (bind_load _ _ _ _ Hr),
    (bind_load _ _ _ _ Hw), (bind_load _ _ _ _ Hphi),
    (bind_load _ _ _ _ Hnu), (bind_load _ _ _ _ HR),
    (bind_load _ _ _ _ Hal), bind_lift.
  replace (length (a_theta a)) with n by (symmetry; apply Ha).
  by rewrite (calculate_ddt_well_shaped n a Ha).
Qed.

Lemma step_two_buffers self h a n :
  reads self h a → well_shaped n a →
  curr_phases self ≠ curr_magnitudes self →
  step self h
  = (Ok (), <[curr_magnitudes self := Arr1 (a_r (euler (timestep self) a))]>
              (<[curr_phases self :=
                   Arr1 (a_theta (euler (timestep self) a))]> h)).
Proof.
  intros Hreads Ha Hne. rewrite (step_unfold self h a n) by done.
  destruct Hreads as (Hth & Hr & _).
  pose proof Ha as (Lth & Lr & _).
  rewrite M_bind_unfold, (iadd_vec _ _ _ _ Hth); cycle 1.
  { unfold ddt_theta. destruct Ha as (? & ? & ? & ? & ? & ? & ? & ? & ?).
    lengths. }
  rewrite (iadd_vec _ (a_r a)); cycle 1.
  { by rewrite list_lookup_insert_ne. }
  { unfold ddt_r. destruct Ha as (? & ? & ? & ? & ? & ? & ? & ? & ?).
    lengths. }
  by rewrite (euler_theta_eq n), (euler_r_eq n).
Qed.

Lemma lookup_euler_phase dt a i :
  (i < length (a_theta a))%nat →
  a_theta (euler dt a) !! i = Some (euler_phase dt a i).
Proof.
  intros Hi. simpl. rewrite list_lookup_fmap, lookup_seq_lt by done. done.
Qed.

Lemma lookup_euler_magnitude dt a i :
  (i < length (a_r a))%nat →
  a_r (euler dt a) !! i = Some (euler_magnitude dt a i).
Proof.
  intros Hi. simpl. rewrite list_lookup_fmap, lookup_seq_lt by done. done.
Qed.

(** X21: in every network state whose arrays have the shapes of
    the data model and whose [curr_phases] and [curr_magnitudes] are two
    array objects, one call of [step] replaces entry [i] of [curr_phases] by
    [old_phases i + timestep * (2*pi*intrinsic_freqs i + sum over j of
    old_magnitudes j * coupling_weights i j * sin (old_phases j -
    old_phases i - phase_biases i j))] and entry [i] of [curr_magnitudes] by
    [old_magnitudes i + timestep * convergence_coefs i * (intrinsic_amps i -
    old_magnitudes i)], every right-hand side read before the call. *)
Theorem step_forward_euler self h a n :
  reads self h a → well_shaped n a →
  curr_phases self ≠ curr_magnitudes self →
  step_is_euler self h a.
Proof.
  intros Hreads Ha Hne.
  pose proof Hreads as (Hth & Hr & _).
  apply lookup_lt_Some in Hth, Hr.
  eexists _, _, _. split; [by eapply step_two_buffers|].
  split; [|split; [|split; [|split; [|split]]]].
  - rewrite list_lookup_insert_ne by done.
    by rewrite list_lookup_insert_eq.
  - by rewrite list_lookup_insert_eq by by rewrite length_insert.
  - apply length_euler_theta.
  - apply length_euler_r.
  - intros i Hi. by apply lookup_euler_phase.
  - intros i Hi. by apply lookup_euler_magnitude.
Qed.

(** When the state vectors are moreover none of the parameter arrays, the
    network reads the Euler update of its arrays after the step. *)
Lemma step_reads self h a n :
  reads self h a → well_shaped n a → own_state self →
  ∃ h', step self h = (Ok (), h') ∧ length h' = length h ∧
        reads self h' (euler (timestep self) a).
Proof.
  intros Hreads Ha (Hne & Hp & Hm).
  eexists. split; [by eapply step_two_buffers|].
  split; [by rewrite !length_insert|].
  destruct Hreads as (Hth & Hr & Hw & Hphi & Hnu & HR & Hal).
  pose proof (lookup_lt_Some _ _ _ Hth). pose proof (lookup_lt_Some _ _ _ Hr).
  unfold param_refs in Hp, Hm.
  rewrite !not_elem_of_cons in Hp, Hm.
  destruct Hp as (? & ? & ? & ? & ? & _), Hm as (? & ? & ? & ? & ? & _).
  unfold reads. rewrite length_euler_theta.
  change (a_w (euler (timestep self) a)) with (a_w a).
  change (a_phi (euler (timestep self) a)) with (a_phi a).
  change (a_nu (euler (timestep self) a)) with (a_nu a).
  change (a_R (euler (timestep self) a)) with (a_R a).
  change (a_alpha (euler (timestep self) a)) with (a_alpha a).
  repeat split.
  - rewrite list_lookup_insert_ne by done. by rewrite list_lookup_insert_eq.
  - by rewrite list_lookup_insert_eq by by rewrite length_insert.
  - by rewrite !list_lookup_insert_ne by done.
  - by rewrite !list_lookup_insert_ne by done.
  - by rewrite !list_lookup_insert_ne by done.
  - by rewrite !list_lookup_insert_ne by done.
  - by rewrite !list_lookup_insert_ne by done.
Qed.

End Step.

(** ** One array for both state vectors *)

Lemma shared_net_constructed :
  __init__ halves_seed halves 1 1 2 3 4 5 (Some 0%nat) (Some 0%nat) 0 unit_heap
  = (Ok shared_net, unit_heap).
Proof. reflexivity. Qed.

Lemma shared_net_reads :
  reads shared_net unit_heap unit_arrays ∧ well_shaped 1 unit_arrays.
Proof.
  split; [by repeat split|].
  unfold well_shaped. simpl. repeat split; by repeat constructor.
Qed.

Lemma shared_net_step :
  step shared_net unit_heap
  = (Ok (), <[0%nat := Arr1 [0 + (2 * PI * 1 + (0 * 0 * sin (0 - 0 - 0) + 0)) * 1
                           + 1 * (1 - 0) * 1]]> unit_heap).
Proof.
  destruct shared_net_reads as [Hr Hs].
  rewrite (step_unfold _ _ _ _ Hr Hs).
  rewrite M_bind_unfold.
  rewrite (iadd_vec _ [0]) by done.
  rewrite (iadd_vec _ [0 + (2 * PI * 1 + (0 * 0 * sin (0 - 0 - 0) + 0)) * 1])
    by done.
  done.
Qed.

(** C1, the defect: [reset] keeps a reference to the caller's array
    instead of a copy and [step] updates in place.  The constructor accepts
    one array [z = [0]] as both [init_phases] and [init_magnitudes]; on
    that network the second in-place addition of [step] reads the buffer
    that the first one has just written, so the one state buffer ends at
    [2 * pi + 1], where the Euler update of the phase is [2 * pi] and that
    of the magnitude is [1]: [step] is not the forward-Euler update. *)
Lemma step_shared_buffer_not_euler :
  __init__ halves_seed halves 1 1 2 3 4 5 (Some 0%nat) (Some 0%nat) 0 unit_heap
  = (Ok shared_net, unit_heap) ∧
  reads shared_net unit_heap unit_arrays ∧ well_shaped 1 unit_arrays ∧
  (∃ x, step shared_net unit_heap = (Ok (), <[0%nat := Arr1 [x]]> unit_heap) ∧
        x = 2 * PI + 1) ∧
  ¬ step_is_euler shared_net unit_heap unit_arrays.
Proof.
  destruct shared_net_reads as [Hr Hs].
  split; [reflexivity|]. split; [done|]. split; [done|].
  split; [eexists; split; [apply shared_net_step|lra]|].
  intros (h' & theta' & r' & Hstep & Hth & _ & _ & _ & Hi & _).
  rewrite shared_net_step in Hstep. injection Hstep as <-.
  simpl in Hth. injection Hth as <-.
  specialize (Hi 0%nat ltac:(simpl; lia)).
  injection Hi as Hi. unfold euler_phase, sigma, at1, at2 in Hi.
  simpl in Hi. unfold sum_list in Hi. simpl in Hi. lra.
Qed.

Lemma unit_net_constructed :
  __init__ halves_seed halves 1 1 2 3 4 5 (Some 0%nat) (Some 6%nat) 0 unit_heap
  = (Ok unit_net, unit_heap).
Proof. reflexivity. Qed.

(** ** Repeated steps *)

Section Steps.
Context {rng : Type}.
Implicit Types (self : @CPGNetwork rng) (h : heap) (a : arrays).

Lemma steps_reads k self h a n :
  reads self h a → well_shaped n a → own_state self →
  ∃ h', steps k self h = (Ok (), h') ∧ length h' = length h ∧
        reads self h' (eulers k (timestep self) a).
Proof.
  revert h a; induction k as [|k IH]; intros h a Hreads Ha Hown.
  { by exists h. }
  destruct (step_reads self h a n Hreads Ha Hown) as (h1 & Hstep & Hlen & Hr1).
  destruct (IH h1 _ Hr1 (euler_well_shaped n _ a Ha) Hown)
    as (h' & Hsteps & Hlen' & Hr').
  exists h'. split; [|split; [congruence|done]].
  simpl. rewrite M_bind_unfold, Hstep. exact Hsteps.
Qed.

Lemma eulers_well_shaped k n dt a :
  well_shaped n a → well_shaped n (eulers k dt a).
Proof.
  revert a; induction k as [|k IH]; intros a Ha; [done|].
  simpl. by apply IH, euler_well_shaped.
Qed.

Lemma at1_euler_theta n dt a i :
  well_shaped n a → (i < n)%nat →
  at1 (a_theta (euler dt a)) i = euler_phase dt a i.
Proof.
  intros Ha Hi. unfold at1 at 1. simpl.
  apply nth_seq_fmap. destruct Ha as (-> & _). done.
Qed.

Lemma at1_euler_r n dt a i :
  well_shaped n a → (i < n)%nat →
  at1 (a_r (euler dt a)) i = euler_magnitude dt a i.
Proof.
  intros Ha Hi. unfold at1 at 1. simpl.
  apply nth_seq_fmap. destruct Ha as (_ & -> & _). done.
Qed.

Lemma at2_zero_matrix m i j : zero_matrix m → at2 m i j = 0.
Proof.
  intros Hm. unfold at2.
  destruct (decide (i < length m)%nat) as [Hi|Hi].
  - assert (Hrow : Forall (λ x, x = 0) (nth i m [])).
    { unfold zero_matrix in Hm. rewrite Forall_forall in Hm. apply Hm.
      apply list_elem_of_In, nth_In, Hi. }
    destruct (decide (j < length (nth i m []))%nat) as [Hj|Hj].
    + rewrite Forall_forall in Hrow. apply Hrow.
      apply list_elem_of_In, nth_In, Hj.
    + apply nth_overflow. lia.
  - rewrite (nth_overflow m) by lia. by destruct j.
Qed.

(** Without coupling the phase of each oscillator advances by
    [timestep * 2 * pi * nu i] per update. *)
Lemma eulers_theta_uncoupled k n dt a i :
  well_shaped n a → zero_matrix (a_w a) → (i < n)%nat →
  at1 (a_theta (eulers k dt a)) i
  = at1 (a_theta a) i + INR k * dt * 2 * PI * at1 (a_nu a) i.
Proof.
  revert a; induction k as [|k IH]; intros a Ha Hw Hi.
  { simpl. lra. }
  change (eulers (S k) dt a) with (eulers k dt (euler dt a)).
  rewrite IH by (by apply euler_well_shaped || done).
  change (a_nu (euler dt a)) with (a_nu a).
  rewrite (at1_euler_theta n) by done. unfold euler_phase.
  rewrite (sigma_ext _ _ (λ _, 0)), sigma_zero, S_INR; [lra|].
  intros j _. rewrite at2_zero_matrix by done. lra.
Qed.

(** The magnitude of each oscillator relaxes geometrically, whatever the
    phases do. *)
Lemma eulers_r_closed_form k n dt a i :
  well_shaped n a → (i < n)%nat →
  at1 (a_r (eulers k dt a)) i
  = at1 (a_R a) i
    + (1 - dt * at1 (a_alpha a) i) ^ k * (at1 (a_r a) i - at1 (a_R a) i).
Proof.
  revert a; induction k as [|k IH]; intros a Ha Hi.
  { simpl. lra. }
  change (eulers (S k) dt a) with (eulers k dt (euler dt a)).
  rewrite IH by (by apply euler_well_shaped || done).
  change (a_R (euler dt a)) with (a_R a).
  change (a_alpha (euler dt a)) with (a_alpha a).
  rewrite (at1_euler_r n) by done. unfold euler_magnitude. simpl pow. lra.
Qed.

Lemma eulers_r_independent k dt a1 a2 :
  a_r a1 = a_r a2 → a_R a1 = a_R a2 → a_alpha a1 = a_alpha a2 →
  a_r (eulers k dt a1) = a_r (eulers k dt a2).
Proof.
  revert a1 a2; induction k as [|k IH]; intros a1 a2 Hr HR Hal; [done|].
  simpl. apply IH; try done.
  simpl. rewrite Hr. apply list_fmap_ext. intros _ i _.
  unfold euler_magnitude. by rewrite Hr, HR, Hal.
Qed.

End Steps.

(** ** Claims on trajectories *)

Section Trajectories.
Context {rng : Type}.
Implicit Types (self : @CPGNetwork rng) (h : heap) (a : arrays).

Lemma lookup_nth_at1 (l : list R) i :
  (i < length l)%nat → l !! i = Some (at1 l i).
Proof.
  intros Hi. unfold at1. by destruct (nth_lookup_or_length l i 0); [|lia].
Qed.

(** X22: in a network with the shapes of the data model, with zero
    coupling weights and with state vectors that are array objects of
    their own (shared neither with each other nor with a parameter),
    after [k] steps entry [i] of [curr_phases] is its initial value plus
    [k * timestep * 2 * pi * intrinsic_freqs i], for every [k] and [i]. *)
Theorem zero_coupling_phases_linear self h a n :
  reads self h a → well_shaped n a → zero_matrix (a_w a) →
  own_state self →
  phases_linear self h a.
Proof.
  intros Hreads Ha Hw Hown k.
  destruct (steps_reads k self h a n Hreads Ha Hown)
    as (h' & Hsteps & _ & Hth' & _).
  pose proof (eulers_well_shaped k n (timestep self) a Ha) as Ha'.
  pose proof Ha as (Hn & _). pose proof Ha' as (Hn' & _).
  exists h', (a_theta (eulers k (timestep self) a)).
  split; [done|]. split; [done|]. split; [congruence|].
  intros i Hi. rewrite lookup_nth_at1 by lia.
  f_equal. apply (eulers_theta_uncoupled k n); (done || lia).
Qed.

(** The magnitudes seen through the store follow the closed form. *)
Lemma magnitude_after_closed_form self h a n k i x :
  reads self h a → well_shaped n a → own_state self → (i < n)%nat →
  magnitude_after self h k i x →
  x = at1 (a_R a) i
      + (1 - timestep self * at1 (a_alpha a) i) ^ k
        * (at1 (a_r a) i - at1 (a_R a) i).
Proof.
  intros Hreads Ha Hown Hi (h' & r' & Hsteps & Hr' & Hx).
  destruct (steps_reads k self h a n Hreads Ha Hown)
    as (h'' & Hsteps' & _ & _ & Hr'' & _).
  rewrite Hsteps' in Hsteps. injection Hsteps as <-.
  rewrite Hr'' in Hr'. injection Hr' as <-.
  pose proof (eulers_well_shaped k n (timestep self) a Ha) as (_ & Hn' & _).
  rewrite lookup_nth_at1 in Hx by lia. injection Hx as <-.
  by apply (eulers_r_closed_form k n).
Qed.

Lemma magnitude_after_exists self h a n k i :
  reads self h a → well_shaped n a → own_state self → (i < n)%nat →
  magnitude_after self h k i
    (at1 (a_R a) i
     + (1 - timestep self * at1 (a_alpha a) i) ^ k
       * (at1 (a_r a) i - at1 (a_R a) i)).
Proof.
  intros Hreads Ha Hown Hi.
  destruct (steps_reads k self h a n Hreads Ha Hown)
    as (h' & Hsteps & _ & _ & Hr' & _).
  pose proof (eulers_well_shaped k n (timestep self) a Ha) as (_ & Hn' & _).
  exists h', (a_r (eulers k (timestep self) a)).
  split; [done|]. split; [done|].
  rewrite lookup_nth_at1 by lia. f_equal. by apply (eulers_r_closed_form k n).
Qed.

(** C5, amended: in a network with the shapes of the data model and state
    vectors of its own, if [curr_magnitudes i] starts at 0 and
    [0 < timestep * convergence_coefs i <= 1], then after [k] steps
    [curr_magnitudes i] is [R * (1 - (1 - timestep * convergence_coefs i)^k)]
    for the target [R = intrinsic_amps i]: a monotone sequence that for
    every [eps > 0] is within [eps] of [R] from some step count on. *)
Theorem amplitude_convergence self h a n i :
  reads self h a → well_shaped n a → own_state self → (i < n)%nat →
  at1 (a_r a) i = 0 →
  0 < timestep self * at1 (a_alpha a) i <= 1 →
  amplitude_converges self h a i ∧
  ∀ k, magnitude_after self h k i
         (at1 (a_R a) i
          * (1 - (1 - timestep self * at1 (a_alpha a) i) ^ k)).
Proof.
  intros Hreads Ha Hown Hi Hr0 Hq.
  set (q := 1 - timestep self * at1 (a_alpha a) i).
  set (Rt := at1 (a_R a) i).
  assert (Hq' : 0 <= q < 1) by (unfold q; lra).
  assert (Hafter : ∀ k, magnitude_after self h k i (Rt * (1 - q ^ k))).
  { intros k.
    pose proof (magnitude_after_exists self h a n k i Hreads Ha Hown Hi) as H.
    rewrite Hr0 in H. fold q Rt in H.
    by replace (Rt * (1 - q ^ k)) with (Rt + q ^ k * (0 - Rt)) by lra. }
  split; [|exact Hafter].
  exists (λ k, Rt * (1 - q ^ k)). split; [exact Hafter|]. split.
  - assert (Hpow : ∀ k, 0 <= q ^ S k <= q ^ k).
    { intros k. pose proof (pow_le q k (proj1 Hq')). simpl. nra. }
    destruct (Rle_dec 0 Rt) as [HR|HR].
    + left. intros k. cbv beta. specialize (Hpow k). nra.
    + right. intros k. cbv beta. specialize (Hpow k). nra.
  - intros eps Heps.
    destruct (Req_dec Rt 0) as [HR0|HR0].
    { exists 0%nat. intros k _. cbv beta. fold Rt. rewrite HR0.
      replace (0 * (1 - q ^ k) - 0) with 0 by lra. by rewrite Rabs_R0. }
    assert (HRabs : 0 < Rabs Rt) by by apply Rabs_pos_lt.
    destruct (pow_lt_1_zero q) with (y := eps / Rabs Rt) as (K & HK).
    { rewrite Rabs_pos_eq; lra. }
    { by apply Rdiv_lt_0_compat. }
    exists K. intros k Hk. cbv beta. fold Rt.
    replace (Rt * (1 - q ^ k) - Rt) with (- Rt * q ^ k) by lra.
    rewrite Rabs_mult, Rabs_Ropp.
    specialize (HK k ltac:(lia)).
    apply (Rmult_lt_compat_l (Rabs Rt)) in HK; [|done].
    replace (Rabs Rt * (eps / Rabs Rt)) with eps in HK; [done|].
    field. lra.
Qed.

End Trajectories.

Section Independence.
Context {rng : Type}.
Implicit Types (self : @CPGNetwork rng) (h : heap) (a : arrays).

(** X24: two networks with the shapes of the data model, each with
    state vectors that are array objects of its own, with the same
    timestep, convergence coefficients, target amplitudes and initial
    magnitudes, hold the same magnitudes after any equal number of steps,
    whatever their phases, frequencies, coupling weights and biases. *)
Theorem magnitudes_independent_of_phases self1 h1 a1 n1 self2 h2 a2 n2 :
  reads self1 h1 a1 → well_shaped n1 a1 → own_state self1 →
  reads self2 h2 a2 → well_shaped n2 a2 → own_state self2 →
  timestep self1 = timestep self2 →
  a_alpha a1 = a_alpha a2 → a_R a1 = a_R a2 → a_r a1 = a_r a2 →
  magnitudes_agree self1 h1 self2 h2.
Proof.
  intros Hr1 Ha1 Ho1 Hr2 Ha2 Ho2 Hdt Hal HR Hr k.
  destruct (steps_reads k self1 h1 a1 n1 Hr1 Ha1 Ho1)
    as (h1' & Hs1 & _ & _ & Hm1 & _).
  destruct (steps_reads k self2 h2 a2 n2 Hr2 Ha2 Ho2)
    as (h2' & Hs2 & _ & _ & Hm2 & _).
  exists h1', h2', (a_r (eulers k (timestep self1) a1)).
  split; [done|]. split; [done|]. split; [done|].
  rewrite Hm2, Hdt. do 2 f_equal. symmetry. by apply eulers_r_independent.
Qed.

End Independence.

(** ** The claims at concrete networks *)

Ltac concrete :=
  repeat match goal with
  | |- reads _ _ _ => by repeat split
  | |- well_shaped _ _ =>
      unfold well_shaped; simpl; repeat split; by repeat constructor
  | |- zero_matrix _ => by repeat constructor
  | |- own_state _ =>
      unfold own_state, param_refs; simpl; rewrite !not_elem_of_cons;
      repeat split; (lia || apply not_elem_of_nil)
  | |- _ ∧ _ => split
  end.

Lemma step_forward_euler_witness :
  reads unit_net unit_heap unit_arrays ∧ well_shaped 1 unit_arrays ∧
  step_is_euler unit_net unit_heap unit_arrays.
Proof.
  split; [|split]; [concrete..|].
  apply (step_forward_euler unit_net unit_heap unit_arrays 1);
    [concrete..|simpl; lia].
Defined.

(** C4, the defect: [reset] keeps a reference to the caller's array
    instead of a copy and [step] updates in place.  On the network that
    the constructor builds from one array [z = [0]] as both [init_phases]
    and [init_magnitudes], with zero coupling weights, the phase after one
    step is [2 * pi + 1], not [2 * pi]: the phases are not linear in the
    number of steps. *)
Lemma shared_buffer_phase_not_linear :
  __init__ halves_seed halves 1 1 2 3 4 5 (Some 0%nat) (Some 0%nat) 0 unit_heap
  = (Ok shared_net, unit_heap) ∧
  reads shared_net unit_heap unit_arrays ∧ well_shaped 1 unit_arrays ∧
  zero_matrix (a_w unit_arrays) ∧
  ¬ phases_linear shared_net unit_heap unit_arrays.
Proof.
  split; [reflexivity|].
  split; [|split; [|split]]; [concrete..|].
  intros Hlin. destruct (Hlin 1%nat) as (h' & theta' & Hsteps & Hth & _ & Hi).
  simpl in Hsteps. rewrite M_bind_unfold, shared_net_step in Hsteps.
  injection Hsteps as <-. simpl in Hth. injection Hth as <-.
  specialize (Hi 0%nat ltac:(simpl; lia)).
  injection Hi as Hi. unfold at1 in Hi. simpl in Hi. lra.
Qed.

Lemma zero_coupling_phases_linear_witness :
  phases_linear unit_net unit_heap unit_arrays.
Proof.
  apply (zero_coupling_phases_linear unit_net unit_heap unit_arrays 1);
    concrete.
Defined.

Lemma fast_net_constructed :
  __init__ halves_seed halves 1 1 2 3 4 5 (Some 0%nat) (Some 6%nat) 0 fast_heap
  = (Ok unit_net, fast_heap).
Proof. reflexivity. Qed.

(** C5 fails when [timestep * convergence_coefs i = 3]: the magnitude is
    [1 - (-2)^k] after [k] steps, at distance [2^k] from the target 1. *)
Lemma fast_relaxation_diverges :
  reads unit_net fast_heap fast_arrays ∧ well_shaped 1 fast_arrays ∧
  zero_matrix (a_w fast_arrays) ∧ own_state unit_net ∧
  at1 (a_r fast_arrays) 0 = 0 ∧
  ¬ amplitude_converges unit_net fast_heap fast_arrays 0.
Proof.
  split; [|split; [|split; [|split; [|split]]]]; [concrete..|done|].
  intros (u & Hu & _ & Hconv).
  destruct (Hconv 1 ltac:(lra)) as (K & HK). specialize (HK K (le_n K)).
  pose proof (magnitude_after_closed_form unit_net fast_heap fast_arrays 1 K 0
                (u K) ltac:(concrete) ltac:(concrete) ltac:(concrete)
                ltac:(lia) (Hu K)) as HuK.
  unfold at1 in HuK, HK. simpl in HuK, HK.
  replace (u K - 1) with (- (1 - 1 * 3) ^ K) in HK by lra.
  rewrite Rabs_Ropp, <- RPow_abs in HK.
  replace (Rabs (1 - 1 * 3)) with 2 in HK
    by (rewrite Rabs_left; lra).
  pose proof (pow_R1_Rle 2 K ltac:(lra)). lra.
Qed.

Lemma amplitude_convergence_witness :
  amplitude_converges unit_net unit_heap unit_arrays 0 ∧
  ∀ k, magnitude_after unit_net unit_heap k 0
         (at1 (a_R unit_arrays) 0
          * (1 - (1 - timestep unit_net * at1 (a_alpha unit_arrays) 0) ^ k)).
Proof.
  apply (amplitude_convergence unit_net unit_heap unit_arrays 1 0);
    [concrete.. | lia | done | unfold at1; simpl; lra].
Defined.

(** C10, the defect: [reset] keeps a reference to the caller's array
    instead of a copy and [step] updates in place.  The constructor builds
    one network with two state arrays and one whose state vectors are the
    same array, with the same timestep, coefficients, target amplitudes
    and initial magnitudes; after one step their magnitudes are [1] and
    [2 * pi + 1]: the phase derivative has been added to the magnitudes of
    the second. *)
Lemma shared_buffer_magnitudes_differ :
  __init__ halves_seed halves 1 1 2 3 4 5 (Some 0%nat) (Some 6%nat) 0 unit_heap
  = (Ok unit_net, unit_heap) ∧
  __init__ halves_seed halves 1 1 2 3 4 5 (Some 0%nat) (Some 0%nat) 0 unit_heap
  = (Ok shared_net, unit_heap) ∧
  reads unit_net unit_heap unit_arrays ∧
  reads shared_net unit_heap unit_arrays ∧
  well_shaped 1 unit_arrays ∧ timestep unit_net = timestep shared_net ∧
  ¬ magnitudes_agree unit_net unit_heap shared_net unit_heap.
Proof.
  split; [reflexivity|]. split; [reflexivity|].
  split; [|split; [|split; [|split]]]; [concrete..|done|].
  intros Hagree.
  destruct (Hagree 1%nat) as (h1 & h2 & r' & Hs1 & Hs2 & Hm1 & Hm2).
  simpl in Hs1, Hs2. rewrite M_bind_unfold in Hs1, Hs2.
  rewrite shared_net_step in Hs2. injection Hs2 as <-.
  rewrite (step_two_buffers unit_net unit_heap unit_arrays 1) in Hs1;
    [|concrete..|simpl; lia].
  injection Hs1 as <-. simpl in Hm1, Hm2.
  injection Hm1 as <-. injection Hm2 as Hm2.
  unfold euler_magnitude, at1 in Hm2. simpl in Hm2.
  pose proof PI_RGT_0. lra.
Qed.

Lemma magnitudes_independent_of_phases_witness :
  magnitudes_agree unit_net unit_heap unit_net other_heap.
Proof.
  apply (magnitudes_independent_of_phases
           unit_net unit_heap unit_arrays 1 unit_net other_heap other_arrays 1);
    (concrete || done).
Defined.

(** ** What a step writes *)

Lemma lookup_snoc (h : heap) x : (h ++ [x]) !! length h = Some x.
Proof. by apply list_lookup_middle. Qed.

Lemma load_inv l (h h' : heap) a :
  load l h = (Ok a, h') → h' = h ∧ h !! l = Some a.
Proof. unfold load. destruct (h !! l); by intros [= <- <-]. Qed.

Lemma load_Raise l (h h' : heap) e : load l h = (Raise e, h') → h' = h.
Proof. unfold load. destruct (h !! l); by intros [= <- <-]. Qed.

Lemma assert_inv b (h h' : heap) u :
  assert b h = (Ok u, h') → h' = h ∧ b = true.
Proof. destruct b; by intros [= <- <-]. Qed.

Section Frame.
Context {rng : Type}.
Variable random : rng → nat → list R * rng.
Implicit Types (self : @CPGNetwork rng) (h : heap) (a : arrays).

(** [step] writes at most the buffers of the two state vectors and keeps
    the shape of every array, whether it returns or raises. *)
Lemma step_frame self h out h' :
  step self h = (out, h') →
  length h' = length h ∧
  (∀ l, l ≠ curr_phases self → l ≠ curr_magnitudes self →
        h' !! l = h !! l) ∧
  (∀ l, shape <$> h' !! l = shape <$> h !! l).
Proof.
  unfold step.
  repeat (rewrite M_bind_unfold;
          match goal with
          | |- context [load ?l h] =>
              destruct (load l h) as [[?|?] ?] eqn:Hload;
              [apply load_inv in Hload as [-> ?]
              |apply load_Raise in Hload as ->; by intros [= <- <-]]
          end).
  rewrite bind_lift.
  destruct (calculate_ddt _ _ _ _ _ _ _) as [d|e]; [|by intros [= <- <-]].
  rewrite M_bind_unfold.
  destruct (iadd (curr_phases self) _ h) as [[[]|e] h1] eqn:Hadd1.
  - intros Hadd2. apply iadd_frame in Hadd1 as (L1 & F1 & S1).
    apply iadd_frame in Hadd2 as (L2 & F2 & S2).
    split; [congruence|]. split.
    + intros l Hp Hm. by rewrite F2, F1.
    + intros l. by rewrite S2, S1.
  - intros [= <- <-]. apply iadd_frame in Hadd1 as (L1 & F1 & S1).
    split; [done|]. split; [|done]. intros l Hp _. by apply F1.
Qed.

Lemma reset_eq self ip im h :
  reset random self ip im h
  = let s := random (random_state self) (num_cpgs self) in
    let '(self1, h1) :=
      match ip with
      | None => (set_curr_phases (length h) (set_random_state s.2 self),
                 h ++ [Arr1 (map (λ u, u * 2 * PI) s.1)])
      | Some p => (set_curr_phases p self, h)
      end in
    match im with
    | None => (Ok (set_curr_magnitudes (length h1) self1),
               h1 ++ [Arr1 (replicate (num_cpgs self) 0)])
    | Some m => (Ok (set_curr_magnitudes m self1), h1)
    end.
Proof. by destruct ip, im. Qed.

(** [reset] does not read the state attributes it is about to assign. *)
Lemma reset_ignores_state self l1 l2 ip im h :
  reset random (set_curr_phases l1 (set_curr_magnitudes l2 self)) ip im h
  = reset random self ip im h.
Proof. rewrite !reset_eq. by destruct ip, im. Qed.

(** [reset] never raises, leaves every array of the store as it is and
    keeps the parameter attributes. *)
Lemma reset_frame self ip im h :
  ∃ self' h', reset random self ip im h = (Ok self', h') ∧
              same_params self self' ∧
              ∀ l, (l < length h)%nat → h' !! l = h !! l.
Proof.
  rewrite reset_eq.
  destruct ip as [p|], im as [m|]; simpl; eexists _, _;
    (split; [done|]); (split; [done|]); intros l Hl;
    rewrite ?lookup_app_l; rewrite ?length_app; (done || lia).
Qed.

(** X23: for every network whose two state vectors are none of
    its parameter arrays, a call of [step] (returning or raising) leaves
    every parameter array as it was; a step writes no array but the two
    state vectors, and [reset] writes no array at all and keeps the
    parameter attributes of the network. *)
Theorem parameters_immutable self h :
  curr_phases self ∉ param_refs self →
  curr_magnitudes self ∉ param_refs self →
  step_keeps_params self h ∧
  (∀ out h', step self h = (out, h') →
     ∀ l, l ≠ curr_phases self → l ≠ curr_magnitudes self →
          h' !! l = h !! l) ∧
  (∀ ip im, ∃ self' h',
     reset random self ip im h = (Ok self', h') ∧ same_params self self' ∧
     ∀ l, (l < length h)%nat → h' !! l = h !! l).
Proof.
  intros Hp Hm. split; [|split].
  - intros out h' Hstep l Hl.
    apply step_frame in Hstep as (_ & F & _). apply F; congruence.
  - intros out h' Hstep. by apply step_frame in Hstep as (_ & F & _).
  - intros ip im. apply reset_frame.
Qed.

(** C8: [step] never reads the random source: two networks that differ at
    most in the state of their generator take every store to the same
    store and the same outcome, for every number of steps. *)
Theorem step_deterministic self1 self2 h k :
  same_but_rng self1 self2 → steps k self1 h = steps k self2 h.
Proof.
  intros (Hdt & _ & Hf & Ha & Hw & Hphi & Hal & Hth & Hr).
  assert (Hstep : step self1 = step self2).
  { unfold step. by rewrite Hdt, Hf, Ha, Hw, Hphi, Hal, Hth, Hr. }
  revert h; induction k as [|k IH]; intros h; [done|].
  simpl. rewrite !M_bind_unfold, Hstep.
  destruct (step self2 h) as [[[]|e] h1]; [apply IH|done].
Qed.

End Frame.

Lemma echo_net_constructed :
  __init__ halves_seed halves 1 1 2 3 4 5 (Some 1%nat) (Some 6%nat) 0 unit_heap
  = (Ok echo_net, unit_heap).
Proof. reflexivity. Qed.

(** C7, the defect: [reset] keeps a reference to the caller's array
    instead of a copy and [step] updates in place.  The constructor accepts
    the array of frequencies [f = [1]] as [init_phases] too; on that
    network [step] adds [2 * pi] to the frequency, so a parameter array
    has changed. *)
Lemma step_overwrites_shared_parameter :
  __init__ halves_seed halves 1 1 2 3 4 5 (Some 1%nat) (Some 6%nat) 0 unit_heap
  = (Ok echo_net, unit_heap) ∧
  intrinsic_freqs echo_net = curr_phases echo_net ∧
  (∃ h', step echo_net unit_heap = (Ok (), h') ∧
         unit_heap !! intrinsic_freqs echo_net = Some (Arr1 [1]) ∧
         h' !! intrinsic_freqs echo_net = Some (Arr1 [1 + 2 * PI])) ∧
  ¬ step_keeps_params echo_net unit_heap.
Proof.
  split; [reflexivity|]. split; [reflexivity|].
  pose proof (step_two_buffers echo_net unit_heap echo_arrays 1
                ltac:(concrete) ltac:(concrete) ltac:(simpl; lia)) as Hstep0.
  split.
  { eexists. split; [exact Hstep0|]. split; [reflexivity|].
    simpl. do 3 f_equal.
    unfold euler_phase, sigma, sum_list, at1, at2. simpl. lra. }
  intros Hkeep.
  pose proof (step_two_buffers echo_net unit_heap echo_arrays 1
                ltac:(concrete) ltac:(concrete) ltac:(simpl; lia)) as Hstep.
  specialize (Hkeep _ _ Hstep 1%nat ltac:(left)).
  simpl in Hkeep. injection Hkeep as Hkeep.
  unfold euler_phase, sigma, sum_list, at1, at2 in Hkeep. simpl in Hkeep.
  pose proof PI_RGT_0. lra.
Qed.

Lemma parameters_immutable_witness :
  step_keeps_params unit_net unit_heap.
Proof.
  apply (parameters_immutable halves unit_net unit_heap);
    unfold param_refs; simpl; rewrite !not_elem_of_cons;
    repeat split; (lia || apply not_elem_of_nil).
Defined.

Lemma step_deterministic_witness :
  steps 3 unit_net unit_heap
  = steps 3 (mkCPGNetwork 1 1 1 2 3 4 5 7%nat 0 6) unit_heap.
Proof. apply step_deterministic. by repeat split. Defined.

(** ** Construction and reset *)

Section Lifecycle.
Context {rng : Type}.
Variable RandomState : Z → rng.
Variable random : rng → nat → list R * rng.
Implicit Types (self : @CPGNetwork rng) (h : heap) (a : arrays).

(** [random(n)] returns [n] samples, each in [[0, 1)]. *)
Hypothesis random_length : ∀ g n, length (random g n).1 = n.
Hypothesis random_range : ∀ g n, Forall (λ u, 0 <= u < 1) (random g n).1.

Lemma init_state_lengths dt f amp w p c ip im seed h self h' :
  __init__ RandomState random dt f amp w p c ip im seed h = (Ok self, h') →
  state_lengths self h'.
Proof.
  unfold __init__. rewrite M_bind_unfold.
  destruct (load f h) as [[nu|?] ?] eqn:Hnu; [|done].
  apply load_inv in Hnu as [-> Hnu].
  rewrite bind_lift. unfold new_RandomState.
  destruct (decide _) as [_|?]; [|done].
  rewrite M_bind_unfold.
  destruct (reset _ _ _ _ h) as [[self1|?] h1]; [|done].
  repeat (rewrite M_bind_unfold;
          match goal with
          | |- context [assert ?b h1] =>
              let H := fresh "Hassert" in
              destruct (assert b h1) as [[?|?] ?] eqn:H; [|done];
              apply assert_inv in H as [-> H];
              apply bool_decide_eq_true in H
          | |- context [load ?l h1] =>
              let H := fresh "Hload" in
              destruct (load l h1) as [[?|?] ?] eqn:H; [|done];
              apply load_inv in H as [-> H]
          end).
  unfold mret, M_ret. intros [= <- <-]. unfold state_lengths, has_shape.
  split.
  - match goal with H : h1 !! curr_phases self1 = _ |- _ => rewrite H end.
    simpl. by f_equal.
  - match goal with H : h1 !! curr_magnitudes self1 = _ |- _ => rewrite H end.
    simpl. by f_equal.
Qed.

(** X19: a network constructed without initial vectors, from parameter
    arrays that exist, gets two new arrays: its state vectors are array
    objects of its own, shared neither with each other nor with a
    parameter. *)
Lemma init_default_own_state dt f amp w p c seed h self h' :
  Forall (λ l, is_Some (h !! l)) [f; amp; w; p; c] →
  __init__ RandomState random dt f amp w p c None None seed h = (Ok self, h') →
  own_state self.
Proof.
  intros Hrefs. rewrite !Forall_cons in Hrefs.
  destruct Hrefs as (Hf & Hamp & Hw & Hp & Hc & _).
  apply lookup_lt_is_Some in Hf, Hamp, Hw, Hp, Hc.
  unfold __init__. rewrite M_bind_unfold.
  destruct (load f h) as [[nu|?] ?] eqn:Hnu; [|done].
  apply load_inv in Hnu as [-> Hnu].
  rewrite bind_lift. unfold new_RandomState.
  destruct (decide _) as [_|?]; [|done].
  rewrite M_bind_unfold, reset_eq. cbv zeta iota beta.
  set (h1 := (h ++ _) ++ _). set (self1 := set_curr_magnitudes _ _).
  repeat (rewrite M_bind_unfold;
          match goal with
          | |- context [assert ?b h1] =>
              destruct (assert b h1) as [[?|?] ?] eqn:Hassert; [|done];
              apply assert_inv in Hassert as [-> _]
          | |- context [load ?l h1] =>
              destruct (load l h1) as [[?|?] ?] eqn:Hload; [|done];
              apply load_inv in Hload as [-> _]
          end).
  unfold mret, M_ret. intros [= <- <-].
  unfold own_state, param_refs, self1. simpl.
  rewrite length_app. simpl. rewrite !not_elem_of_cons.
  repeat split; try lia; apply not_elem_of_nil.
Qed.

Lemma step_state_lengths self h out h' :
  state_lengths self h → step self h = (out, h') → state_lengths self h'.
Proof.
  intros [Hp Hm] Hstep. apply step_frame in Hstep as (_ & _ & S).
  unfold state_lengths, has_shape. by rewrite !S.
Qed.

Lemma reset_state_lengths self h ip im :
  (∀ l, ip = Some l → has_shape h l [num_cpgs self]) →
  (∀ l, im = Some l → has_shape h l [num_cpgs self]) →
  ∃ self' h', reset random self ip im h = (Ok self', h') ∧
              num_cpgs self' = num_cpgs self ∧ state_lengths self' h'.
Proof.
  intros Hip Him. rewrite reset_eq. unfold state_lengths, has_shape in *.
  destruct ip as [p|], im as [m|]; simpl; eexists _, _;
    (split; [done|]); (split; [done|]); simpl.
  - split; [by apply Hip | by apply Him].
  - specialize (Hip p eq_refl). split.
    + rewrite lookup_app_l; [done|].
      apply fmap_Some in Hip as (? & Hip & _). by eapply lookup_lt_Some.
    + rewrite lookup_app_r, Nat.sub_diag by done. simpl.
      by rewrite length_replicate.
  - specialize (Him m eq_refl). split.
    + rewrite lookup_app_r, Nat.sub_diag by done. simpl.
      by rewrite length_fmap, random_length.
    + rewrite lookup_app_l; [done|].
      apply fmap_Some in Him as (? & Him & _). by eapply lookup_lt_Some.
  - split.
    + rewrite lookup_app_l by (rewrite length_app; simpl; lia).
      rewrite lookup_app_r, Nat.sub_diag by done. simpl.
      by rewrite length_fmap, random_length.
    + rewrite lookup_app_r, Nat.sub_diag by done. simpl.
      by rewrite length_replicate.
Qed.

(** C6, amended: both state vectors have length [N] after construction,
    after every [step] (returning or raising) from a state where they
    have, and after every [reset] whose supplied vectors, if any, have
    length [N]. *)
Theorem state_lengths_invariant :
  (∀ dt f amp w p c ip im seed h self h',
     __init__ RandomState random dt f amp w p c ip im seed h = (Ok self, h') →
     state_lengths self h') ∧
  (∀ self h out h',
     state_lengths self h → step self h = (out, h') →
     state_lengths self h') ∧
  (∀ self h ip im,
     (∀ l, ip = Some l → has_shape h l [num_cpgs self]) →
     (∀ l, im = Some l → has_shape h l [num_cpgs self]) →
     ∃ self' h', reset random self ip im h = (Ok self', h') ∧
                 num_cpgs self' = num_cpgs self ∧ state_lengths self' h').
Proof.
  split; [|split].
  - apply init_state_lengths.
  - apply step_state_lengths.
  - apply reset_state_lengths.
Qed.

(** C3: [reset] with [init_phases] omitted draws [N] samples from the
    generator of the network, which advances, and makes [curr_phases] a
    new array of these samples times [2 * pi], each in [[0, 2*pi)]; with
    [init_magnitudes] omitted it makes [curr_magnitudes] a new array of
    [N] zeros; a supplied array becomes the state vector itself, and no
    array of the store is written. *)
Theorem reset_contract self h ip im :
  ∃ self' h',
    reset random self ip im h = (Ok self', h') ∧
    (ip = None →
       let s := random (random_state self) (num_cpgs self) in
       ∃ theta,
         h' !! curr_phases self' = Some (Arr1 theta) ∧
         theta = map (λ u, u * 2 * PI) s.1 ∧
         length theta = num_cpgs self ∧
         Forall (λ x, 0 <= x < 2 * PI) theta ∧
         random_state self' = s.2 ∧
         (length h ≤ curr_phases self')%nat) ∧
    (im = None →
       h' !! curr_magnitudes self'
       = Some (Arr1 (replicate (num_cpgs self) 0)) ∧
       (length h ≤ curr_magnitudes self')%nat) ∧
    (∀ l, ip = Some l →
          curr_phases self' = l ∧ random_state self' = random_state self) ∧
    (∀ l, im = Some l → curr_magnitudes self' = l) ∧
    (∀ l, (l < length h)%nat → h' !! l = h !! l).
Proof.
  assert (Hrange : Forall (λ x, 0 <= x < 2 * PI)
            (map (λ u, u * 2 * PI)
               (random (random_state self) (num_cpgs self)).1)).
  { apply Forall_fmap. eapply Forall_impl; [apply random_range|].
    intros u Hu. simpl. pose proof PI_RGT_0. nra. }
  rewrite reset_eq.
  destruct ip as [p|], im as [m|]; simpl; eexists _, _;
    (split; [done|]); (split; [|split; [|split; [|split]]]);
    try done; try (by intros l [= <-]);
    try (intros l Hl; rewrite !lookup_app_l;
         rewrite ?length_app; (done || lia)).
  - intros _. simpl. by rewrite lookup_snoc.
  - intros _. simpl. eexists. rewrite lookup_snoc.
    split; [done|]. split; [done|].
    split; [by rewrite length_fmap, random_length|]. done.
  - intros _. simpl. eexists.
    rewrite lookup_app_l by (rewrite length_app; simpl; lia).
    rewrite lookup_snoc.
    split; [done|]. split; [done|].
    split; [by rewrite length_fmap, random_length|]. done.
  - intros _. simpl. rewrite lookup_snoc. split; [done|].
    rewrite length_app. lia.
Qed.

End Lifecycle.

(** ** The checks of the constructor *)

Section Constructor.
Context {rng : Type}.
Variable RandomState : Z → rng.
Variable random : rng → nat → list R * rng.
Implicit Types (self : @CPGNetwork rng) (h : heap).

Lemma bind_assert {B} b (f : unit → M B) h :
  (assert b ≫= f) h = if b then f () h else (Raise AssertionError, h).
Proof. by destruct b. Qed.

(** [__init__] on arrays that exist: the outcome is decided by the six
    shapes, whatever [intrinsic_amps] refers to. *)
Lemma init_outcome dt f amp w p c ip im seed h nu W Phi Al :
  (0 ≤ seed < 2 ^ 32)%Z →
  h !! f = Some nu → h !! w = Some W → h !! p = Some Phi →
  h !! c = Some Al →
  ∃ self h',
    reset random
      (mkCPGNetwork dt (size nu) f amp w p c (RandomState seed) 0 0)
      ip im h = (Ok self, h') ∧
    num_cpgs self = size nu ∧
    ∀ theta r,
      h' !! curr_phases self = Some theta →
      h' !! curr_magnitudes self = Some r →
      __init__ RandomState random dt f amp w p c ip im seed h
      = if shapes_accepted (size nu) nu W Phi Al theta r
        then (Ok self, h') else (Raise AssertionError, h').
Proof.
  intros Hseed Hf Hw Hp Hc.
  destruct (reset_frame random
              (mkCPGNetwork dt (size nu) f amp w p c (RandomState seed) 0 0)
              ip im h) as (self & h' & Hreset & (_ & Hn & _) & Hframe).
  simpl in Hn.
  exists self, h'. split; [done|]. split; [done|].
  intros theta r Hth Hr. unfold __init__.
  rewrite (bind_load _ _ _ _ Hf), bind_lift. unfold new_RandomState.
  rewrite decide_True by done. rewrite M_bind_unfold, Hreset.
  assert (Hw' : h' !! w = Some W)
    by (rewrite Hframe; [done|by eapply lookup_lt_Some]).
  assert (Hp' : h' !! p = Some Phi)
    by (rewrite Hframe; [done|by eapply lookup_lt_Some]).
  assert (Hc' : h' !! c = Some Al)
    by (rewrite Hframe; [done|by eapply lookup_lt_Some]).
  unfold shapes_accepted. rewrite <- Hn.
  rewrite bind_assert. destruct (bool_decide (shape nu = _)); [|done].
  rewrite (bind_load _ _ _ _ Hw'), bind_assert.
  destruct (bool_decide (shape W = _)); [|done].
  rewrite (bind_load _ _ _ _ Hp'), bind_assert.
  destruct (bool_decide (shape Phi = _)); [|done].
  rewrite (bind_load _ _ _ _ Hc'), bind_assert.
  destruct (bool_decide (shape Al = _)); [|done].
  rewrite (bind_load _ _ _ _ Hth), bind_assert.
  destruct (bool_decide (shape theta = _)); [|done].
  rewrite (bind_load _ _ _ _ Hr), bind_assert.
  by destruct (bool_decide (shape r = _)).
Qed.

(** X4: for a seed that [np.random.RandomState] accepts (from 0 to
    [2 ** 32 - 1]), [__init__] returns a network, with [num_cpgs = n],
    whenever the frequencies and convergence coefficients have shape
    [(n,)], the weights and biases shape [(n, n)] and the supplied initial
    vectors, if any, shape [(n,)]: consistent shapes are accepted for every
    number of oscillators, whatever [intrinsic_amps] refers to. *)
Lemma init_consistent_succeeds dt f amp w p c ip im seed h n nu W Phi al :
  (∀ g k, length (random g k).1 = k) →
  (0 ≤ seed < 2 ^ 32)%Z →
  h !! f = Some (Arr1 nu) → length nu = n →
  h !! w = Some (Arr2 n W) → length W = n →
  h !! p = Some (Arr2 n Phi) → length Phi = n →
  h !! c = Some (Arr1 al) → length al = n →
  (∀ l, ip = Some l → has_shape h l [n]) →
  (∀ l, im = Some l → has_shape h l [n]) →
  ∃ self h',
    __init__ RandomState random dt f amp w p c ip im seed h = (Ok self, h') ∧
    num_cpgs self = n.
Proof.
  intros Hlen Hseed Hf Hnu Hw HW Hp HPhi Hc Hal Hip Him.
  destruct (init_outcome dt f amp w p c ip im seed h _ _ _ _ Hseed
              Hf Hw Hp Hc)
    as (self & h' & Hreset & Hn & Hinit).
  assert (Hsize : size (Arr1 nu) = n) by (unfold size; simpl; lia).
  rewrite Hsize in Hn, Hreset, Hinit.
  destruct (reset_state_lengths random Hlen
              (mkCPGNetwork dt n f amp w p c (RandomState seed) 0 0)
              h ip im Hip Him) as (self' & h'' & Hreset' & _ & Hth & Hr).
  rewrite Hreset in Hreset'. injection Hreset' as <- <-.
  unfold has_shape in Hth, Hr. rewrite Hn in Hth, Hr.
  apply fmap_Some in Hth as (theta & Hth & Hsth).
  apply fmap_Some in Hr as (r & Hr & Hsr).
  exists self, h'. split; [|done].
  rewrite (Hinit theta r Hth Hr). unfold shapes_accepted. simpl.
  rewrite <- Hsth, <- Hsr, Hnu, HW, HPhi, Hal.
  by rewrite !bool_decide_eq_true_2.
Qed.

End Constructor.

(** C2, the defect: a network of two oscillators is constructed although
    [intrinsic_amps] has three entries; the mismatch surfaces only in
    [step], as a broadcasting error. *)
Theorem init_accepts_misshaped_amps :
  size (Arr1 [6; 6]) = 2%nat ∧ shape (Arr1 [1; 1; 1]) ≠ [2%nat] ∧
  __init__ halves_seed halves 0.002 0 1 2 3 4 None None 0 long_amps_heap
  = (Ok long_amps_net, long_amps_built) ∧
  step long_amps_net long_amps_built = (Raise ValueError, long_amps_built).
Proof. split; [done|]. split; [done|]. split; reflexivity. Qed.

Lemma halves_length g n : length (halves g n).1 = n.
Proof. apply length_replicate. Qed.

Lemma halves_range g n : Forall (λ u, 0 <= u < 1) (halves g n).1.
Proof. apply Forall_replicate. lra. Qed.

(** C6 fails for a [reset] on its own: [network.reset(init_phases=v)] with
    a vector [v] of two entries on a network of one oscillator leaves
    [curr_phases] with two entries. *)
Lemma reset_installs_wrong_length :
  __init__ halves_seed halves 1 1 2 3 4 5 (Some 0%nat) (Some 6%nat) 0 long_heap
  = (Ok unit_net, long_heap) ∧
  state_lengths unit_net long_heap ∧
  ¬ reset_keeps_lengths halves unit_net long_heap (Some 7%nat) None.
Proof.
  split; [reflexivity|]. split; [by split|].
  intros Hkeep.
  destruct (Hkeep ltac:(by split) _ _ eq_refl) as [Hp _].
  by vm_compute in Hp.
Qed.

Lemma state_lengths_invariant_witness :
  state_lengths unit_net unit_heap ∧
  ∀ out h', step unit_net unit_heap = (out, h') → state_lengths unit_net h'.
Proof.
  pose proof (state_lengths_invariant halves_seed halves halves_length)
    as (Hinit & Hstep & _).
  assert (Hs : state_lengths unit_net unit_heap).
  { apply (Hinit 1 1%nat 2%nat 3%nat 4%nat 5%nat (Some 0%nat) (Some 6%nat)
             0%Z unit_heap). reflexivity. }
  split; [exact Hs|]. intros out h'. by apply Hstep.
Defined.

Lemma reset_contract_witness :
  ∃ self' h',
    reset halves unit_net None None unit_heap = (Ok self', h') ∧
    h' !! curr_phases self' = Some (Arr1 [1 / 2 * 2 * PI]) ∧
    h' !! curr_magnitudes self' = Some (Arr1 [0]).
Proof.
  destruct (reset_contract halves halves_length halves_range
              unit_net unit_heap None None)
    as (self' & h' & Hreset & Hp & Hm & _).
  exists self', h'. split; [exact Hreset|].
  destruct (Hp eq_refl) as (theta & Hth & -> & _).
  destruct (Hm eq_refl) as (Hr & _).
  split; [exact Hth|exact Hr].
Defined.

(** ** kinematics.py *)

(** C9: the joint angles are [hip = 0], [thigh = 0.8 - 0.3 * a * sin p] and
    [calf = -1.6 - 0.7 * a * sin p] when [sin p > 0], [-1.6] otherwise. *)
Theorem go1_target_angles p a :
  ∃ hip thigh calf,
    get_go1_target_angles p a = Arr1 [hip; thigh; calf] ∧
    hip = 0 ∧
    thigh = 0.8 - 0.3 * a * sin p ∧
    (sin p > 0 → calf = -1.6 - 0.7 * a * sin p) ∧
    (¬ sin p > 0 → calf = -1.6).
Proof.
  unfold get_go1_target_angles. eexists _, _, _.
  split; [done|]. split; [done|]. split; [lra|].
  destruct (Rgt_dec (sin p) 0); split; intros; (lra || done).
Qed.

(** ** More on the joint mapping *)

Lemma sin_period_Z x (m : Z) : sin (x + 2 * IZR m * PI) = sin x.
Proof.
  destruct (Z_le_gt_dec 0 m) as [Hm|Hm].
  - rewrite <- (Z2Nat.id m) by done. rewrite <- INR_IZR_INZ.
    apply sin_period.
  - rewrite <- (sin_period (x + 2 * IZR m * PI) (Z.to_nat (- m))).
    rewrite INR_IZR_INZ, Z2Nat.id by lia. rewrite opp_IZR. f_equal. lra.
Qed.

(** X1: for a nonnegative amplitude the hip is 0, the thigh stays within
    [0.3 * a] of 0.8, and the calf lies between [-1.6 - 0.7 * a] and its
    base -1.6, for every phase. *)
Theorem go1_angles_bounded p a :
  0 <= a →
  ∃ hip thigh calf,
    get_go1_target_angles p a = Arr1 [hip; thigh; calf] ∧
    hip = 0 ∧
    0.8 - 0.3 * a <= thigh <= 0.8 + 0.3 * a ∧
    -1.6 - 0.7 * a <= calf <= -1.6.
Proof.
  intros Ha. unfold get_go1_target_angles. eexists _, _, _.
  split; [done|]. split; [done|].
  pose proof (SIN_bound p) as Hs.
  split; [nra|]. destruct (Rgt_dec (sin p) 0); nra.
Qed.

Lemma go1_angles_bounded_witness :
  ∃ hip thigh calf,
    get_go1_target_angles 2 1 = Arr1 [hip; thigh; calf] ∧
    hip = 0 ∧
    0.8 - 0.3 * 1 <= thigh <= 0.8 + 0.3 * 1 ∧
    -1.6 - 0.7 * 1 <= calf <= -1.6.
Proof. apply (go1_angles_bounded 2 1). lra. Defined.

(** X2: with amplitude 0, or at a phase that is a whole multiple of [pi],
    the three angles are the standing pose [[0; 0.8; -1.6]] to which [main]
    sets the joints before the loop. *)
Theorem go1_standing_pose p a :
  a = 0 ∨ (∃ k : Z, p = IZR k * PI) →
  get_go1_target_angles p a = Arr1 standing_pose.
Proof.
  intros H. unfold get_go1_target_angles, standing_pose.
  assert (Hz : a * sin p = 0).
  { destruct H as [->|Hk]; [lra|]. rewrite (sin_eq_0_1 p Hk). lra. }
  replace (0.8 - a * 0.3 * sin p) with 0.8 by nra.
  destruct (Rgt_dec (sin p) 0); [|done].
  by replace (-1.6 - a * 0.7 * sin p) with (-1.6) by nra.
Qed.

Lemma go1_standing_pose_witness :
  get_go1_target_angles 2 0 = Arr1 standing_pose.
Proof. apply go1_standing_pose. by left. Defined.

(** X3: the joint angles have period [2 * pi] in the phase: whole turns
    added to the phase, which [step] never wraps, change nothing. *)
Theorem go1_angles_periodic p a (m : Z) :
  get_go1_target_angles (p + 2 * IZR m * PI) a = get_go1_target_angles p a.
Proof. unfold get_go1_target_angles. by rewrite sin_period_Z. Qed.

(** ** The trot network of the scripts *)

Lemma trot_weights_eq :
  trot_weights
  = [[0 * 10; 1 * 10; 1 * 10; 0 * 10]; [1 * 10; 0 * 10; 0 * 10; 1 * 10];
     [1 * 10; 0 * 10; 0 * 10; 1 * 10]; [0 * 10; 1 * 10; 1 * 10; 0 * 10]].
Proof.
  pose proof PI_RGT_0.
  assert (H0 : (if Rgt_dec (PI * 0) 0 then 1 else 0) = 0)
    by (destruct (Rgt_dec (PI * 0) 0); lra).
  assert (H1 : (if Rgt_dec (PI * 1) 0 then 1 else 0) = 1)
    by (destruct (Rgt_dec (PI * 1) 0); lra).
  unfold trot_weights, trot_biases. simpl. by rewrite !H0, !H1.
Qed.

Lemma trot_constructed :
  __init__ halves_seed halves 0.002 0 1 2 3 4 None None 0 trot_heap
  = (Ok trot_net, trot_built).
Proof. reflexivity. Qed.

(** ** More on the constructor *)

Lemma init_consistent_succeeds_witness :
  ∃ self h',
    __init__ halves_seed halves 0.002 0 1 2 3 4 None None 0 trot_heap
    = (Ok self, h') ∧ num_cpgs self = 4%nat.
Proof.
  apply (init_consistent_succeeds halves_seed halves 0.002 0 1 2 3 4 None None
           0 trot_heap 4 (map (λ x, x * 6) (replicate 4 1))
           trot_weights trot_biases (map (λ x, x * 20) (replicate 4 1))
           halves_length);
    try reflexivity; try lia; by intros l [=].
Defined.

Lemma init_default_own_state_witness : own_state trot_net.
Proof.
  apply (init_default_own_state halves_seed halves 0.002 0 1 2 3 4 0
           trot_heap trot_net trot_built).
  - repeat constructor; by eexists.
  - reflexivity.
Defined.

Section Rejection.
Context {rng : Type}.
Variable RandomState : Z → rng.
Variable random : rng → nat → list R * rng.
Implicit Types (self : @CPGNetwork rng) (h : heap).

(** Where [reset] leaves the two state attributes. *)
Lemma reset_state_refs self ip im h self' h' :
  reset random self ip im h = (Ok self', h') →
  (∀ l, ip = Some l → curr_phases self' = l) ∧
  (∀ l, im = Some l → curr_magnitudes self' = l) ∧
  (ip = None → is_Some (h' !! curr_phases self')) ∧
  (im = None → is_Some (h' !! curr_magnitudes self')) ∧
  (∀ l, (l < length h)%nat → h' !! l = h !! l).
Proof.
  rewrite reset_eq.
  destruct ip as [p|], im as [m|]; simpl; intros [= <- <-];
    repeat split; try done; try (by intros l [= <-]); simpl;
    try (intros l Hl; rewrite !lookup_app_l;
         rewrite ?length_app; (done || lia)).
  - intros _. rewrite lookup_snoc. by eexists.
  - intros _. rewrite lookup_snoc. by eexists.
  - intros _. rewrite lookup_app_l by (rewrite length_app; simpl; lia).
    rewrite lookup_snoc. by eexists.
  - intros _. rewrite lookup_snoc. by eexists.
Qed.

(** X5: for a seed that [np.random.RandomState] accepts (from 0 to
    [2 ** 32 - 1]), when the arrays exist and one of the shapes that
    [__init__] asserts is wrong (the frequencies not one axis, a matrix not
    [N] by [N], the coefficients or a supplied initial vector not of
    length [N]), construction raises AssertionError, and no array that
    existed before has been written. *)
Theorem init_rejects_bad_shape dt f amp w p c ip im seed h nu W Phi Al :
  (0 ≤ seed < 2 ^ 32)%Z →
  h !! f = Some nu → h !! w = Some W → h !! p = Some Phi →
  h !! c = Some Al →
  (∀ l, ip = Some l → is_Some (h !! l)) →
  (∀ l, im = Some l → is_Some (h !! l)) →
  ¬ init_shapes_ok h nu W Phi Al ip im →
  ∃ h', __init__ RandomState random dt f amp w p c ip im seed h
        = (Raise AssertionError, h') ∧
        ∀ l, (l < length h)%nat → h' !! l = h !! l.
Proof.
  intros Hseed Hf Hw Hp Hc Hip Him Hbad.
  destruct (init_outcome RandomState random dt f amp w p c ip im seed h
              _ _ _ _ Hseed Hf Hw Hp Hc)
    as (self & h' & Hreset & Hn & Hinit).
  destruct (reset_state_refs _ _ _ _ _ _ Hreset)
    as (Hpl & Hml & Hpn & Hmn & Hframe).
  assert (Hth : ∃ theta, h' !! curr_phases self = Some theta ∧
            ∀ l, ip = Some l → h !! l = Some theta).
  { destruct ip as [l|].
    - destruct (Hip l eq_refl) as [x Hx]. exists x.
      rewrite (Hpl l eq_refl).
      split; [rewrite Hframe; [done|by eapply lookup_lt_Some]|].
      by intros ? [= <-].
    - destruct (Hpn eq_refl) as [x Hx]. exists x. by split. }
  assert (Hr : ∃ r, h' !! curr_magnitudes self = Some r ∧
            ∀ l, im = Some l → h !! l = Some r).
  { destruct im as [l|].
    - destruct (Him l eq_refl) as [x Hx]. exists x.
      rewrite (Hml l eq_refl).
      split; [rewrite Hframe; [done|by eapply lookup_lt_Some]|].
      by intros ? [= <-].
    - destruct (Hmn eq_refl) as [x Hx]. exists x. by split. }
  destruct Hth as (theta & Hth & Hth0), Hr as (r & Hr & Hr0).
  exists h'. split; [|done].
  rewrite (Hinit theta r Hth Hr).
  destruct (shapes_accepted _ _ _ _ _ _ _) eqn:Hacc; [|done].
  exfalso. apply Hbad. unfold shapes_accepted in Hacc.
  rewrite !andb_true_iff, !bool_decide_eq_true in Hacc.
  destruct Hacc as (((((? & ?) & ?) & ?) & Hst) & Hsr).
  repeat split; try done.
  - intros l Hl. unfold has_shape. rewrite (Hth0 l Hl). simpl. by f_equal.
  - intros l Hl. unfold has_shape. rewrite (Hr0 l Hl). simpl. by f_equal.
Qed.

(** X20: a seed below 0 or above [2 ** 32 - 1] makes construction raise
    ValueError where the generator is created: before [reset] runs and
    before any shape is asserted, so that misshaped parameters are then
    reported as ValueError too, and the store is left as it was. *)
Theorem init_rejects_bad_seed dt f amp w p c ip im seed h :
  is_Some (h !! f) → ¬ (0 ≤ seed < 2 ^ 32)%Z →
  __init__ RandomState random dt f amp w p c ip im seed h
  = (Raise ValueError, h).
Proof.
  intros [nu Hf] Hseed. unfold __init__.
  rewrite (bind_load _ _ _ _ Hf), bind_lift. unfold new_RandomState.
  by rewrite decide_False by done.
Qed.

End Rejection.

Lemma init_rejects_bad_shape_witness :
  ∃ h', __init__ halves_seed halves 0.002 0 1 2 3 4 (Some 1%nat) None 0
          long_amps_heap
        = (Raise AssertionError, h') ∧
        ∀ l, (l < length long_amps_heap)%nat → h' !! l = long_amps_heap !! l.
Proof.
  apply (init_rejects_bad_shape halves_seed halves 0.002 0 1 2 3 4
           (Some 1%nat) None 0 long_amps_heap
           (Arr1 [6; 6]) (Arr2 2 [[0; 10]; [10; 0]])
           (Arr2 2 [[0; PI]; [PI; 0]]) (Arr1 [20; 20]));
    try reflexivity.
  - lia.
  - intros l [= <-]. by eexists.
  - by intros l [=].
  - intros (_ & _ & _ & _ & Hip & _).
    specialize (Hip 1%nat eq_refl). by vm_compute in Hip.
Defined.

Lemma init_rejects_bad_seed_witness :
  __init__ halves_seed halves 0.002 0 1 2 3 4 None None (-1) long_amps_heap
  = (Raise ValueError, long_amps_heap).
Proof.
  apply (init_rejects_bad_seed halves_seed halves 0.002 0 1 2 3 4 None None
           (-1) long_amps_heap); [by eexists|lia].
Defined.

(** ** Steps of a network whose target amplitudes are misshaped *)

(** The phase half of [calculate_ddt] does not read [intrinsic_amps]. *)
Lemma calculate_ddt_any_amps n a amps :
  shaped_except_amps n a →
  calculate_ddt (Arr1 (a_theta a)) (Arr1 (a_r a)) (Arr2 n (a_w a))
    (Arr2 n (a_phi a)) (Arr1 (a_nu a)) amps (Arr1 (a_alpha a))
  = (R_minus_r ← binop Rminus amps (Arr1 (a_r a));
     dr_dt ← binop Rmult (Arr1 (a_alpha a)) R_minus_r;
     Ok (Arr1 (ddt_theta a), dr_dt)).
Proof.
  intros (Hth & Hr & Hnu & Hal & Hw & Hwr & Hphi & Hphir).
  unfold calculate_ddt. simpl row_vector. simpl col_vector.
  cbn [mbind res_bind]. rewrite binop_row_col. cbn [mbind res_bind].
  rewrite binop_vec_mat by (done || congruence). cbn [mbind res_bind].
  rewrite Hth.
  assert (Hd : Forall (λ row : list R, length row = n)
                 (map (λ t, map (λ u, u - t) (a_theta a)) (a_theta a))).
  { apply Forall_fmap, Forall_forall. intros t _. simpl.
    by rewrite length_fmap. }
  rewrite binop_mat; [|by rewrite length_fmap; congruence|done|done].
  cbn [mbind res_bind]. simpl amap.
  rewrite binop_mat; cycle 1.
  { lengths. }
  { apply Forall_fmap. eapply Forall_impl; [exact Hwr|].
    intros row Hrow. simpl in Hrow. unfold compose.
    rewrite length_zip_with. lia. }
  { apply Forall_fmap.
    eapply Forall_impl; [apply (Forall_length_zip_with Rminus n); eassumption|].
    intros row Hrow. simpl in Hrow. unfold compose. by rewrite length_fmap. }
  cbn [mbind res_bind]. simpl sum_axis1. cbn [mbind res_bind].
  rewrite (binop_vec Rplus) by lengths. by cbn [mbind res_bind].
Qed.

(** One row against one row of the same length. *)
Lemma binop_row_vec f x row :
  length x = length row →
  binop f (Arr2 (length row) [row]) (Arr1 x)
  = Ok (Arr2 (length row) [zip_with f row x]).
Proof.
  intros E. simpl. unfold broadcast2. simpl.
  rewrite ?bdim_same, E, ?bdim_same. simpl. by rewrite !stretch_id.
Qed.

Lemma binop_vec_row f x row :
  length x = length row →
  binop f (Arr1 x) (Arr2 (length row) [row])
  = Ok (Arr2 (length row) [zip_with f x row]).
Proof.
  intros E. simpl. unfold broadcast2. simpl.
  rewrite ?bdim_same, E, ?bdim_same. simpl. by rewrite !stretch_id.
Qed.


Lemma binop_vec_mismatch f x y :
  length x ≠ length y → length x ≠ 1%nat → length y ≠ 1%nat →
  binop f (Arr1 x) (Arr1 y) = Raise ValueError.
Proof.
  intros H1 H2 H3. simpl. unfold broadcast1, bdim.
  by rewrite !decide_False.
Qed.

Section Misshaped.
Context {rng : Type}.
Implicit Types (self : @CPGNetwork rng) (h : heap) (a : arrays).

Lemma step_unfold_any_amps self h a n amps :
  reads_except_amps self h a amps → shaped_except_amps n a →
  step self h
  = (d ← lift (R_minus_r ← binop Rminus amps (Arr1 (a_r a));
               dr_dt ← binop Rmult (Arr1 (a_alpha a)) R_minus_r;
               Ok (Arr1 (ddt_theta a), dr_dt));
     iadd (curr_phases self) (amap (λ x, x * timestep self) d.1);;
     iadd (curr_magnitudes self) (amap (λ x, x * timestep self) d.2)) h.
Proof.
  intros (Hth & Hr & Hw & Hphi & Hnu & HR & Hal) Ha. unfold step.
  rewrite (bind_load _ _ _ _ Hth), (bind_load _ _ _ _ Hr),
    (bind_load _ _ _ _ Hw), (bind_load _ _ _ _ Hphi),
    (bind_load _ _ _ _ Hnu), (bind_load _ _ _ _ HR),
    (bind_load _ _ _ _ Hal).
  replace (length (a_theta a)) with n by (symmetry; apply Ha).
  by rewrite (calculate_ddt_any_amps n a amps Ha).
Qed.

Lemma length_ddt_theta n a :
  shaped_except_amps n a → length (ddt_theta a) = n.
Proof.
  intros (Hth & Hr & Hnu & Hal & Hw & Hwr & Hphi & Hphir).
  unfold ddt_theta. lengths.
Qed.

(** The new phases do not depend on the target amplitudes. *)
Lemma euler_theta_any_amps n dt a i :
  shaped_except_amps n a → (i < n)%nat →
  zip_with Rplus (a_theta a) (map (λ x, x * dt) (ddt_theta a)) !! i
  = Some (euler_phase dt a i).
Proof.
  intros Ha Hi. pose proof Ha as (Hth & Hr & Hnu & Hal & Hw & Hwr & Hphi & Hphir).
  set (a' := mkArrays (a_theta a) (a_r a) (a_w a) (a_phi a) (a_nu a)
               (replicate n 0) (a_alpha a)).
  assert (Ha' : well_shaped n a').
  { unfold well_shaped, a'. simpl. rewrite length_replicate. by repeat split. }
  change (ddt_theta a) with (ddt_theta a').
  change (a_theta a) with (a_theta a').
  rewrite (euler_theta_eq n dt a' Ha').
  rewrite lookup_euler_phase by (simpl; lia). done.
Qed.

(** X6: in a constructed network whose [intrinsic_amps] has one axis of a
    length that is neither [N] nor 1, [step] raises ValueError before it
    writes anything: the store is left as it was. *)
Theorem step_rejects_wrong_amps_length self h a n amps :
  reads_except_amps self h a (Arr1 amps) → shaped_except_amps n a →
  length amps ≠ n → length amps ≠ 1%nat → n ≠ 1%nat →
  step self h = (Raise ValueError, h).
Proof.
  intros Hreads Ha H1 H2 H3.
  rewrite (step_unfold_any_amps self h a n _ Hreads Ha).
  destruct Ha as (_ & Hr & _).
  rewrite binop_vec_mismatch by congruence. done.
Qed.


(** X8: when [intrinsic_amps] has shape [(1, N)], [step] raises ValueError
    at its second in-place addition: the phases have already been replaced
    by their Euler update, the magnitudes have not moved. *)
Theorem step_row_amps_half_done self h a n amps :
  reads_except_amps self h a (Arr2 n [amps]) → shaped_except_amps n a →
  length amps = n →
  ∃ theta',
    step self h
    = (Raise ValueError, <[curr_phases self := Arr1 theta']> h) ∧
    length theta' = n ∧
    ∀ i, (i < n)%nat → theta' !! i = Some (euler_phase (timestep self) a i).
Proof.
  intros Hreads Ha Hamps. subst n.
  rewrite (step_unfold_any_amps self h a _ _ Hreads Ha).
  pose proof (length_ddt_theta _ a Ha) as Hlen.
  destruct Hreads as (Hth & Hr & _).
  pose proof Ha as (Lth & Lr & Lnu & Lal & _).
  rewrite binop_row_vec by lia.
  cbn [mbind res_bind].
  replace (length amps) with (length (zip_with Rminus amps (a_r a)))
    by lengths.
  rewrite binop_vec_row by lengths. cbn [mbind res_bind].
  rewrite bind_lift. cbn [fst snd amap].
  rewrite M_bind_unfold, (iadd_vec _ _ _ _ Hth) by lengths.
  exists (zip_with Rplus (a_theta a)
            (map (λ x, x * timestep self) (ddt_theta a))).
  split; [|split; [lengths|]].
  - unfold iadd. rewrite M_bind_unfold. unfold load.
    set (h1 := <[curr_phases self := _]> h).
    assert (Hm : ∃ x, h1 !! curr_magnitudes self = Some (Arr1 x) ∧
                      length x = length amps).
    { unfold h1. destruct (decide (curr_magnitudes self = curr_phases self))
        as [->|Hne].
      - rewrite list_lookup_insert_eq by by eapply lookup_lt_Some.
        eexists. split; [done|lengths].
      - rewrite list_lookup_insert_ne by done. by exists (a_r a). }
    destruct Hm as (x & -> & Hx).
    rewrite bind_lift. simpl fmap.
    set (row := map _ (zip_with Rmult _ _)).
    assert (Hrow : length row = length amps) by (unfold row; lengths).
    replace (length (zip_with Rminus amps (a_r a)))
      with (length row) by (rewrite Hrow; lengths).
    rewrite binop_vec_row by lia.
    by rewrite decide_False by (simpl; intros [=]).
  - intros i Hi. apply (euler_theta_any_amps (length amps)); [done|].
    rewrite length_zip_with in Hi. lia.
Qed.

End Misshaped.

Lemma step_rejects_wrong_amps_length_witness :
  step long_amps_net (two_osc_heap (Arr1 [1; 1; 1]))
  = (Raise ValueError, two_osc_heap (Arr1 [1; 1; 1])).
Proof.
  apply (step_rejects_wrong_amps_length long_amps_net _ two_osc_arrays 2
           [1; 1; 1]); try (simpl; lia).
  - by repeat split.
  - unfold shaped_except_amps. simpl. repeat split; by repeat constructor.
Defined.


Lemma step_row_amps_half_done_witness :
  ∃ theta',
    step long_amps_net (two_osc_heap (Arr2 2 [[1; 1]]))
    = (Raise ValueError,
       <[curr_phases long_amps_net := Arr1 theta']>
         (two_osc_heap (Arr2 2 [[1; 1]]))) ∧
    length theta' = 2%nat ∧
    ∀ i, (i < 2)%nat →
         theta' !! i
         = Some (euler_phase (timestep long_amps_net) two_osc_arrays i).
Proof.
  apply (step_row_amps_half_done long_amps_net _ two_osc_arrays 2 [1; 1]).
  - by repeat split.
  - unfold shaped_except_amps. simpl. repeat split; by repeat constructor.
  - done.
Defined.

(** ** Symmetries of the update *)




Section Symmetry.
Context {rng : Type}.
Implicit Types (self : @CPGNetwork rng) (h : heap) (a : arrays).






End Symmetry.




(** ** The first step after a reset *)

Section FirstStep.
Context {rng : Type}.
Variable random : rng → nat → list R * rng.
Implicit Types (self : @CPGNetwork rng) (h : heap) (a : arrays).

Lemma at1_replicate_zero n i : at1 (replicate n 0) i = 0.
Proof.
  unfold at1. destruct (decide (i < n)%nat).
  - by apply nth_lookup_Some, lookup_replicate_2.
  - apply nth_overflow. rewrite length_replicate. lia.
Qed.

(** X12: [reset()] followed by [step()]: the magnitudes start at zero, so
    the coupling term vanishes whatever the weights and biases are; every
    phase is its random start [2 * pi * u i] plus
    [timestep * 2 * pi * intrinsic_freqs i], and every magnitude is
    [timestep * convergence_coefs i * intrinsic_amps i]. *)
Theorem first_step_after_default_reset self h a n :
  (∀ g k, length (random g k).1 = k) →
  reads_params self h n a → num_cpgs self = n → well_shaped n a →
  a_theta a = map (λ u, u * 2 * PI) (random (random_state self) n).1 →
  a_r a = replicate n 0 →
  ∃ self' h1 h2 theta' r',
    reset random self None None h = (Ok self', h1) ∧
    step self' h1 = (Ok (), h2) ∧
    h2 !! curr_phases self' = Some (Arr1 theta') ∧
    h2 !! curr_magnitudes self' = Some (Arr1 r') ∧
    ∀ i, (i < n)%nat →
      theta' !! i
      = Some (at1 (random (random_state self) n).1 i * 2 * PI
              + timestep self * (2 * PI * at1 (a_nu a) i)) ∧
      r' !! i = Some (timestep self * at1 (a_alpha a) i * at1 (a_R a) i).
Proof.
  intros Hlen (Hw & Hphi & Hnu & HR & Hal) Hn Ha Hth Hr.
  rewrite reset_eq. cbv zeta iota beta. rewrite Hn.
  set (theta0 := map (λ u, u * 2 * PI) (random (random_state self) n).1)
    in *.
  set (h1 := (h ++ [Arr1 theta0]) ++ [Arr1 (replicate n 0)]).
  set (self' := set_curr_magnitudes _ _).
  assert (Hold : ∀ l x, h !! l = Some x → h1 !! l = Some x).
  { intros l x Hl. unfold h1. apply lookup_lt_Some in Hl as Hlt.
    rewrite !lookup_app_l; rewrite ?length_app; (done || lia). }
  pose proof Ha as (Lth & _).
  assert (Hreads : reads self' h1 a).
  { unfold reads. rewrite Lth, Hth, Hr. repeat split; try by apply Hold.
    - unfold h1, self'. simpl.
      rewrite lookup_app_l by (rewrite length_app; simpl; lia).
      apply lookup_snoc.
    - unfold h1, self'. simpl. apply lookup_snoc. }
  assert (Hne : curr_phases self' ≠ curr_magnitudes self').
  { unfold self'. simpl. rewrite length_app. simpl. lia. }
  exists self', h1. eexists _, _, _. split; [done|].
  split; [by apply (step_two_buffers self' h1 a n)|].
  destruct Hreads as (Hp & Hm & _). apply lookup_lt_Some in Hp, Hm.
  split; [|split].
  - rewrite list_lookup_insert_ne by done. by rewrite list_lookup_insert_eq.
  - by rewrite list_lookup_insert_eq by by rewrite length_insert.
  - intros i Hi. pose proof Ha as (_ & Lr & _). split.
    + rewrite lookup_euler_phase by lia. f_equal. unfold euler_phase.
      rewrite (sigma_ext _ _ (λ _, 0)), sigma_zero.
      * rewrite Hth. unfold at1 at 1, theta0.
        rewrite (nth_fmap _ _ _ 0) by (rewrite Hlen; lia).
        fold (at1 (random (random_state self) n).1 i).
        change (timestep self') with (timestep self). lra.
      * intros j _. rewrite Hr, at1_replicate_zero. lra.
    + rewrite lookup_euler_magnitude by lia. f_equal.
      unfold euler_magnitude. rewrite Hr, at1_replicate_zero.
      change (timestep self') with (timestep self). lra.
Qed.

End FirstStep.

Lemma first_step_after_default_reset_witness :
  ∃ self' h1 h2 theta' r',
    reset halves trot_net None None trot_built = (Ok self', h1) ∧
    step self' h1 = (Ok (), h2) ∧
    h2 !! curr_phases self' = Some (Arr1 theta') ∧
    h2 !! curr_magnitudes self' = Some (Arr1 r') ∧
    ∀ i, (i < 4)%nat →
      theta' !! i
      = Some (at1 (halves (random_state trot_net) 4).1 i * 2 * PI
              + timestep trot_net * (2 * PI * at1 (a_nu trot_arrays) i)) ∧
      r' !! i = Some (timestep trot_net * at1 (a_alpha trot_arrays) i
                      * at1 (a_R trot_arrays) i).
Proof.
  apply (first_step_after_default_reset halves trot_net trot_built
           trot_arrays 4 halves_length); try reflexivity.
  - by repeat split.
  - concrete.
Defined.

(** ** The plot scripts *)

Lemma mapM_res_cons {A B} (f : A → res B) x l :
  mapM f (x :: l) = (y ← f x; k ← mapM f l; mret (y :: k)).
Proof. done. Qed.

Lemma mapM_row_of_angles (ts : list R) :
  mapM (row_of 3) (map (λ t, get_go1_target_angles t 1) ts)
  = Ok (map (λ t, [angle 0 t 1; angle 1 t 1; angle 2 t 1]) ts).
Proof.
  induction ts as [|t ts IH]; [done|].
  rewrite !fmap_cons, mapM_res_cons, IH. done.
Qed.

(** [psi_func] on a nonempty array of phases: three rows, one per joint. *)
Lemma psi_func_rows (ts : list R) :
  ts ≠ [] →
  psi_func ts
  = Ok (Arr2 (length ts)
          [map (λ t, angle 0 t 1) ts; map (λ t, angle 1 t 1) ts;
           map (λ t, angle 2 t 1) ts]).
Proof.
  intros Hts. unfold psi_func.
  destruct ts as [|t ts]; [done|].
  change (np_array (map (λ t0, get_go1_target_angles t0 1) (t :: ts)))
    with (rows ← mapM (row_of 3)
                   (map (λ t0, get_go1_target_angles t0 1) (t :: ts));
          Ok (Arr2 3 rows)).
  rewrite mapM_row_of_angles. cbn [mbind res_bind transpose seq].
  rewrite length_fmap. do 2 f_equal.
  cbn [fmap list_fmap]. by rewrite <- !list_fmap_compose.
Qed.

(** The amplitude enters the joint angles as a factor on the deviation
    from the pose at phase 0. *)
Lemma angle_modulation d t r :
  angle d 0 1 + r * (angle d t 1 - angle d 0 1) = angle d t r.
Proof.
  unfold angle, get_go1_target_angles. rewrite sin_0.
  destruct (Rgt_dec 0 0) as [H0|_]; [lra|].
  destruct (Rgt_dec (sin t) 0); destruct d as [|[|[|[|d]]]]; simpl; lra.
Qed.

Lemma modulate_row (f : R → R) (g : R → R → R) (N : R) (ts rs : list R) :
  (∀ t r, N + r * (f t - N) = g t r) → length rs = length ts →
  zip_with Rplus (replicate (length ts) N)
    (zip_with Rmult rs (zip_with Rminus (map f ts) (replicate (length ts) N)))
  = zip_with g ts rs.
Proof.
  intros Hfg. revert rs; induction ts as [|t ts IH]; intros [|r rs] Hl;
    simpl in *; try done.
  f_equal; [apply Hfg|]. apply IH. lia.
Qed.

(** A matrix against a column with as many rows, and the converse: entry
    [i] of the column meets every entry of row [i]. *)
Lemma binop_mat_col f n rows xs :
  length rows = length xs → Forall (λ row, length row = n) rows →
  binop f (Arr2 n rows) (Arr2 1 (map (λ x, [x]) xs))
  = Ok (Arr2 n (zip_with (λ row x, zip_with f row (replicate n x)) rows xs)).
Proof.
  intros E Hrows. simpl. unfold broadcast2.
  rewrite length_fmap, E, bdim_same, bdim_one_r. simpl.
  rewrite (stretch_id (length xs) rows) by done.
  rewrite (stretch_id (length xs) (map _ xs)) by by rewrite length_fmap.
  do 2 f_equal. clear E. revert xs.
  induction Hrows as [|row rows Hrow _ IH]; intros [|x xs]; simpl; try done.
  by rewrite stretch_id, IH.
Qed.

Lemma binop_col_mat f n rows xs :
  length rows = length xs → Forall (λ row, length row = n) rows →
  binop f (Arr2 1 (map (λ x, [x]) xs)) (Arr2 n rows)
  = Ok (Arr2 n (zip_with (λ x row, zip_with f (replicate n x) row) xs rows)).
Proof.
  intros E Hrows. simpl. unfold broadcast2.
  rewrite length_fmap, E, bdim_same, bdim_one_l. simpl.
  rewrite (stretch_id (length xs) rows) by done.
  rewrite (stretch_id (length xs) (map _ xs)) by by rewrite length_fmap.
  do 2 f_equal. clear E. revert xs.
  induction Hrows as [|row rows Hrow _ IH]; intros [|x xs]; simpl; try done.
  by rewrite stretch_id, IH.
Qed.

(** X13: the amplitude modulation of plot_kinematics_amp_modulated.py,
    [neutral_pos + r_ts * (base_wave - neutral_pos)] with the wave of
    amplitude 1, is the joint mapping itself at the amplitudes [r_ts]:
    row [d], column [t] of the result is joint [d] of
    [get_go1_target_angles(theta_ts[t], r_ts[t])]. *)
Theorem amp_modulation_is_amplitude theta_ts r_ts :
  length r_ts = length theta_ts →
  joint_angles_amp_modulated theta_ts r_ts
  = Ok (Arr2 (length theta_ts)
          [zip_with (angle 0) theta_ts r_ts;
           zip_with (angle 1) theta_ts r_ts;
           zip_with (angle 2) theta_ts r_ts]).
Proof.
  intros Hl. unfold joint_angles_amp_modulated.
  rewrite (psi_func_rows [0]) by done. cbn [mbind res_bind].
  destruct (decide (theta_ts = [])) as [->|Hne].
  { destruct r_ts; [|done]. reflexivity. }
  rewrite (psi_func_rows theta_ts) by done. cbn [mbind res_bind].
  set (n := length theta_ts).
  change (Arr2 (length [0]) _)
    with (Arr2 1 (map (λ x, [x]) [angle 0 0 1; angle 1 0 1; angle 2 0 1])).
  rewrite (binop_mat_col Rminus n);
    [|done|repeat constructor; apply length_fmap].
  cbn [mbind res_bind zip_with].
  rewrite (binop_vec_mat Rmult);
    [|done|repeat constructor; unfold n; lengths].
  cbn [mbind res_bind fmap list_fmap].
  change [[angle 0 0 1]; [angle 1 0 1]; [angle 2 0 1]]
    with (map (λ x, [x]) [angle 0 0 1; angle 1 0 1; angle 2 0 1]).
  rewrite (binop_col_mat Rplus n);
    [|done|repeat constructor; unfold n; lengths].
  cbn [zip_with]. unfold n.
  by rewrite (modulate_row _ (angle 0)), (modulate_row _ (angle 1)),
    (modulate_row _ (angle 2)) by (done || (intros; apply angle_modulation)).
Qed.

Lemma amp_modulation_is_amplitude_witness :
  joint_angles_amp_modulated [0; 2] [0; 1]
  = Ok (Arr2 2 [zip_with (angle 0) [0; 2] [0; 1];
                zip_with (angle 1) [0; 2] [0; 1];
                zip_with (angle 2) [0; 2] [0; 1]]).
Proof. by apply (amp_modulation_is_amplitude [0; 2] [0; 1]). Defined.

(** X14: [psi_func] turns a nonempty array of [n] phases into three rows
    (hip, thigh, calf) of [n] angles at amplitude 1; for an empty array it
    returns an empty array with a single axis, not one of shape (3, 0). *)
Theorem psi_func_shape (ts : list R) :
  (ts = [] → psi_func ts = Ok (Arr1 [])) ∧
  (ts ≠ [] →
   psi_func ts
   = Ok (Arr2 (length ts)
           [map (λ t, angle 0 t 1) ts; map (λ t, angle 1 t 1) ts;
            map (λ t, angle 2 t 1) ts])).
Proof. split; [by intros ->|apply psi_func_rows]. Qed.

(** ** The control loop *)

Lemma assign_slice_leg start p m (l : list R) :
  (start + 3 ≤ length l)%nat →
  assign_slice start (start + 3) (get_go1_target_angles p m) l
  = Got (take start l ++ leg p m ++ drop (start + 3) l).
Proof.
  intros Hl. unfold assign_slice, get_go1_target_angles. simpl.
  rewrite Nat.min_l by done. rewrite decide_True by (simpl; lia). done.
Qed.

Lemma index_at1 (v : list R) k :
  (k < length v)%nat → index v k = Got (at1 v k).
Proof. intros Hk. unfold index. by rewrite lookup_nth_at1. Qed.

Lemma index_overflow (v : list R) k :
  (length v ≤ k)%nat → index v k = IndexError.
Proof. intros Hk. unfold index. by rewrite lookup_ge_None_2. Qed.

Lemma control_signal_legs (ps ms : list R) :
  (4 ≤ length ps)%nat → (4 ≤ length ms)%nat →
  control_signal ps ms
  = Got (leg (at1 ps 2) (at1 ms 2) ++ leg (at1 ps 0) (at1 ms 0)
         ++ leg (at1 ps 3) (at1 ms 3) ++ leg (at1 ps 1) (at1 ms 1)).
Proof.
  intros Hp Hm. unfold control_signal.
  rewrite !index_at1 by lia. cbn [mbind ctl_bind].
  rewrite (assign_slice_leg 0) by (simpl; lia). cbn [mbind ctl_bind].
  rewrite (assign_slice_leg 3) by (simpl; lia). cbn [mbind ctl_bind].
  rewrite (assign_slice_leg 6) by (simpl; lia). cbn [mbind ctl_bind].
  rewrite (assign_slice_leg 9) by (simpl; lia). done.
Qed.

(** X15: the control signal exists exactly when both state vectors have at
    least four entries, and it is then the twelve angles of the legs FR,
    FL, RR, RL computed from oscillators 2, 0, 3, 1; with fewer
    oscillators the loop stops with IndexError. *)
Theorem control_signal_outcome (ps ms : list R) :
  ((4 ≤ length ps)%nat ∧ (4 ≤ length ms)%nat →
   control_signal ps ms
   = Got (leg (at1 ps 2) (at1 ms 2) ++ leg (at1 ps 0) (at1 ms 0)
          ++ leg (at1 ps 3) (at1 ms 3) ++ leg (at1 ps 1) (at1 ms 1))) ∧
  ((length ps < 4)%nat ∨ (length ms < 4)%nat →
   control_signal ps ms = IndexError).
Proof.
  split; [intros [Hp Hm]; by apply control_signal_legs|].
  intros Hshort. unfold control_signal.
  destruct (decide (length ps ≤ 2)%nat);
    [by rewrite (index_overflow ps 2)|].
  rewrite (index_at1 ps 2) by lia. cbn [mbind ctl_bind].
  destruct (decide (length ms ≤ 2)%nat);
    [by rewrite (index_overflow ms 2)|].
  rewrite (index_at1 ms 2) by lia. cbn [mbind ctl_bind].
  rewrite (assign_slice_leg 0) by (simpl; lia). cbn [mbind ctl_bind].
  rewrite (index_at1 ps 0), (index_at1 ms 0) by lia. cbn [mbind ctl_bind].
  rewrite (assign_slice_leg 3) by (simpl; lia). cbn [mbind ctl_bind].
  destruct (decide (length ps ≤ 3)%nat);
    [by rewrite (index_overflow ps 3)|].
  rewrite (index_at1 ps 3) by lia. cbn [mbind ctl_bind].
  rewrite (index_overflow ms 3) by lia. done.
Qed.

(** X16: while the first four magnitudes are zero the control signal is
    the standing pose of every leg, [np.tile(standing_pose, 4)], the
    joint positions that [main] sets before the loop. *)
Theorem control_signal_at_rest (ps ms : list R) :
  (4 ≤ length ps)%nat → (4 ≤ length ms)%nat →
  (∀ k, (k < 4)%nat → at1 ms k = 0) →
  control_signal ps ms = Got (np_tile standing_pose 4).
Proof.
  intros Hp Hm Hz. rewrite control_signal_legs by done.
  assert (Hleg : ∀ p, leg p 0 = standing_pose).
  { intros p. unfold leg, angle, get_go1_target_angles, standing_pose.
    destruct (Rgt_dec (sin p) 0); simpl; repeat f_equal; lra. }
  rewrite !Hz by lia. by rewrite !Hleg.
Qed.

Lemma control_signal_at_rest_witness :
  control_signal [1; 2; 3; 4] [0; 0; 0; 0] = Got (np_tile standing_pose 4).
Proof.
  apply control_signal_at_rest; [simpl; lia..|].
  intros [|[|[|[|k]]]] Hk; (reflexivity || lia).
Defined.

Lemma eulers_twins k n dt a i i' :
  well_shaped n a → (i < n)%nat → (i' < n)%nat → twins a i i' →
  at1 (a_theta (eulers k dt a)) i = at1 (a_theta (eulers k dt a)) i' ∧
  at1 (a_r (eulers k dt a)) i = at1 (a_r (eulers k dt a)) i'.
Proof.
  intros Ha Hi Hi' (Hth & Hr & Hnu & HR & Hal & Hw & Hphi). split.
  - revert a Ha Hth Hr Hnu HR Hal Hw Hphi.
    induction k as [|k IH]; intros a Ha Hth Hr Hnu HR Hal Hw Hphi; [done|].
    simpl. apply IH; try done.
    + by apply euler_well_shaped.
    + rewrite !(at1_euler_theta n) by done.
      unfold euler_phase, at2. by rewrite Hth, Hnu, Hw, Hphi.
    + rewrite !(at1_euler_r n) by done.
      unfold euler_magnitude. by rewrite Hr, HR, Hal.
  - rewrite !(eulers_r_closed_form k n) by done. by rewrite Hr, HR, Hal.
Qed.

Section Trot.
Context {rng : Type}.
Implicit Types (self : @CPGNetwork rng) (h : heap) (a : arrays).

(** X17: in a network of at least four oscillators in which oscillators 0
    and 3 have the same state and parameters, and so have 1 and 2, the
    control signal computed after every number of steps gives the legs of
    a diagonal the same three angles: FR and RL the angles [x], FL and RR
    the angles [y] (the trot gait). *)
Theorem diagonal_legs_move_together self h a n k :
  reads self h a → well_shaped n a → own_state self → (4 ≤ n)%nat →
  twins a 0 3 → twins a 1 2 →
  ∃ h' ps ms x y,
    steps k self h = (Ok (), h') ∧
    h' !! curr_phases self = Some (Arr1 ps) ∧
    h' !! curr_magnitudes self = Some (Arr1 ms) ∧
    length x = 3%nat ∧ length y = 3%nat ∧
    control_signal ps ms = Got (x ++ y ++ y ++ x).
Proof.
  intros Hreads Ha Hown Hn H03 H12.
  destruct (steps_reads k self h a n Hreads Ha Hown)
    as (h' & Hsteps & _ & Hp & Hm & _).
  pose proof (eulers_well_shaped k n (timestep self) a Ha) as (Hlp & Hlm & _).
  destruct (eulers_twins k n (timestep self) a 0 3) as [Hp03 Hm03];
    [done|lia..|done|].
  destruct (eulers_twins k n (timestep self) a 1 2) as [Hp12 Hm12];
    [done|lia..|done|].
  set (a' := eulers k (timestep self) a) in *.
  eexists h', _, _, (leg (at1 (a_theta a') 2) (at1 (a_r a') 2)),
    (leg (at1 (a_theta a') 0) (at1 (a_r a') 0)).
  do 3 (split; [done|]). do 2 (split; [done|]).
  rewrite control_signal_legs by lia.
  by rewrite <- Hp03, <- Hm03, Hp12, Hm12.
Qed.

End Trot.

Lemma diagonal_legs_move_together_witness :
  ∃ h' ps ms x y,
    steps 3 trot_net trot_built = (Ok (), h') ∧
    h' !! curr_phases trot_net = Some (Arr1 ps) ∧
    h' !! curr_magnitudes trot_net = Some (Arr1 ms) ∧
    length x = 3%nat ∧ length y = 3%nat ∧
    control_signal ps ms = Got (x ++ y ++ y ++ x).
Proof.
  apply (diagonal_legs_move_together trot_net trot_built trot_arrays 4 3);
    try lia; try (by repeat split); concrete.
Defined.

(** ** The recorded history *)

Lemma set_row_middle (i : nat) (v g : list R) (done rest : list (list R)) :
  length done = i → length v = 4%nat →
  set_row 4 i (Arr1 v) (done ++ g :: rest) = Got (done ++ v :: rest).
Proof.
  intros Hi Hv. unfold set_row.
  rewrite decide_True by (rewrite length_app; simpl; lia).
  rewrite decide_True by done. subst i.
  by rewrite insert_app_r_alt, Nat.sub_diag by done.
Qed.

Section Rollout.
Context {rng : Type}.
Implicit Types (self : @CPGNetwork rng) (h : heap) (a : arrays).

Lemma rollout_from_history self count :
  own_state self →
  ∀ i h a (dp dm gp gm : list (list R)),
    reads self h a → well_shaped 4 a →
    length dp = i → length dm = i →
    length gp = count → length gm = count →
    ∃ h',
      rollout_from self i count (dp ++ gp) (dm ++ gm) h
      = (Ok (Got (dp ++ map (λ j, a_theta (eulers (S j) (timestep self) a))
                          (seq 0 count),
                  dm ++ map (λ j, a_r (eulers (S j) (timestep self) a))
                          (seq 0 count))), h') ∧
      reads self h' (eulers count (timestep self) a).
Proof.
  intros Hown. induction count as [|count IH];
    intros i h a dp dm gp gm Hreads Ha Hdp Hdm Hgp Hgm.
  { destruct gp; [|done]. destruct gm; [|done]. by exists h. }
  destruct gp as [|g gp]; [done|]. destruct gm as [|g' gm]; [done|].
  destruct (step_reads self h a 4 Hreads Ha Hown) as (h1 & Hstep & _ & Hr1).
  pose proof (euler_well_shaped 4 (timestep self) a Ha) as Ha1.
  destruct (IH (S i) h1 (euler (timestep self) a)
              (dp ++ [a_theta (euler (timestep self) a)])
              (dm ++ [a_r (euler (timestep self) a)]) gp gm)
    as (h' & Hroll & Hr'); try done;
    [rewrite length_app; simpl; lia..|simpl in *; lia|simpl in *; lia|].
  exists h'. split; [|done].
  cbn [rollout_from]. rewrite M_bind_unfold, Hstep.
  destruct Hr1 as (Hp & Hm & _). destruct Ha1 as (Hlp & Hlm & _).
  rewrite (bind_load _ _ _ _ Hp), set_row_middle by done.
  cbn [and_then].
  rewrite (bind_load _ _ _ _ Hm), set_row_middle by done.
  cbn [and_then].
  rewrite !(cons_middle _ dp), !(cons_middle _ dm), !app_assoc, Hroll.
  rewrite <- !app_assoc, <- !cons_seq, !fmap_cons.
  by rewrite <- !fmap_S_seq, <- !list_fmap_compose.
Qed.

(** X18: for a network of four oscillators whose state vectors are array
    objects of their own, the loop of [plot_rollout.py] ends without an
    exception and overwrites every row of the two uninitialised histories:
    row [j] holds the state after [j + 1] forward-Euler steps (the initial
    state is not recorded), and the later in-place updates of the state do
    not change the rows recorded before. *)
Theorem rollout_records_every_step self h a num_steps garbage_p garbage_m :
  reads self h a → well_shaped 4 a → own_state self →
  ∃ h',
    rollout self num_steps garbage_p garbage_m h
    = (Ok (Got (map (λ j, a_theta (eulers (S j) (timestep self) a))
                  (seq 0 num_steps),
                map (λ j, a_r (eulers (S j) (timestep self) a))
                  (seq 0 num_steps))), h') ∧
    reads self h' (eulers num_steps (timestep self) a).
Proof.
  intros Hreads Ha Hown. unfold rollout.
  assert (Hrows : ∀ g, length (np_empty num_steps 4 g) = num_steps).
  { intros g. unfold np_empty. by rewrite length_fmap, length_seq. }
  exact (rollout_from_history self num_steps Hown 0 h a [] [] _ _
           Hreads Ha eq_refl eq_refl (Hrows _) (Hrows _)).
Qed.

End Rollout.

Lemma rollout_records_every_step_witness :
  ∃ h',
    rollout trot_net 3 (λ _ _, 7) (λ _ _, 9) trot_built
    = (Ok (Got (map (λ j, a_theta (eulers (S j) (timestep trot_net)
                                     trot_arrays)) (seq 0 3),
                map (λ j, a_r (eulers (S j) (timestep trot_net)
                                 trot_arrays)) (seq 0 3))), h') ∧
    reads trot_net h' (eulers 3 (timestep trot_net) trot_arrays).
Proof.
  apply (rollout_records_every_step trot_net trot_built trot_arrays 3);
    concrete.
Defined.

Lemma psi_func_shape_witness :
  psi_func [1; 2]
  = Ok (Arr2 2 [[angle 0 1 1; angle 0 2 1]; [angle 1 1 1; angle 1 2 1];
                [angle 2 1 1; angle 2 2 1]]).
Proof. by apply (proj2 (psi_func_shape [1; 2])). Defined.

Lemma control_signal_outcome_witness :
  control_signal [1; 2; 3; 4] [5; 6; 7; 8]
  = Got (leg 3 7 ++ leg 1 5 ++ leg 4 8 ++ leg 2 6) ∧
  control_signal [1; 2; 3] [5; 6; 7; 8] = IndexError.
Proof.
  split.
  - apply (proj1 (control_signal_outcome [1; 2; 3; 4] [5; 6; 7; 8])).
    simpl. lia.
  - apply (proj2 (control_signal_outcome [1; 2; 3] [5; 6; 7; 8])).
    simpl. lia.
Defined.
